(** * Rubik: the cube state, the move scheduler and the selection resolver

    A shallow embedding of the TypeScript sources

      - [utils/cubeMath.ts]            (rotateX / rotateY / rotateZ, roundVector,
                                        getRotationResult),
      - [components/RubiksCube.tsx]    (generateSolvedCube, getCubiesInLayer,
                                        triggerRotate, resetCube,
                                        handleCubieClick, the useFrame loop),
      - [components/ArrowIndicators.tsx] (both revisions: [generateArrow], which
                                        takes the clicked face normal, and the
                                        older [addArrow] / [checkAndAdd]),

    followed by the properties of the specification that concern them.

    Numbers.  A JavaScript [number] that holds a coordinate, an angle in
    radians or an animation progress is a rational [Q] (every double is one):
    the logical positions are rounded to integers at every commit, and the
    thresholds of the selection resolver and of the cue generator are
    compared with exact lattice values.  A number that holds an Euler angle
    or a quaternion component is an IEEE binary64 [float]: the orientation
    of a cubie is recomputed through THREE's Quaternion / Euler code at
    every commit and stored as it comes out, bit for bit, so that code is
    transcribed operation by operation on doubles.  [toDouble] takes the
    angle of a commit from one side to the other.

    The host.  [Math.cos], [Math.sin], [Math.sqrt], [Math.asin] and
    [Math.atan2] belong to the host: they are Variables of the Section
    [Host].  On the rational side the only thing assumed of them is that at
    a signed quarter turn the sine and the cosine are within 1/4 of their
    real values; on the double side nothing is assumed but, in one place,
    the values of the sine and the cosine at plus and minus [Math.PI / 4].
    The examples run on a reference host that follows fdlibm, the library
    whose algorithms V8 carries.

    State.  The React state cells and refs of [RubiksCube] are the fields of
    one record [State]; an event handler or a frame callback is a function
    from states to states, and a state update is visible to the next one. *)

From Stdlib Require Import ZArith QArith Qround Qabs List Bool Lia Lqa
  String Permutation.
From Stdlib Require Qcanon.
From Stdlib Require Import Floats.
Import ListNotations.

Local Open Scope Q_scope.

(* ================================================================== *)
(** * types.ts *)

(** [export type Vector3 = [number, number, number]], with rational
    coordinates (positions, normals, arrows) and with doubles (Euler
    angles). *)
Definition Vector3 : Type := (Q * Q * Q)%type.

Definition Vector3d : Type := (float * float * float)%type.

(** [export interface CubieData] *)
Record CubieData : Type := mkCubie {
  id : nat;
  position : Vector3;
  rotation : Vector3d;
  initialPosition : Vector3
}.

(** [export type MoveType = 'U' | 'U\'' | 'D' | ...] *)
Inductive MoveType : Type :=
  | U | U' | D | D' | L | L' | R | R' | F | F' | B | B'.

(** The axis names ['x' | 'y' | 'z']. *)
Inductive Axis : Type := ax_x | ax_y | ax_z.

(** [move[0]] : the face letter of a move code. *)
Definition move_head (m : MoveType) : string :=
  match m with
  | U | U' => "U" | D | D' => "D" | L | L' => "L"
  | R | R' => "R" | F | F' => "F" | B | B' => "B"
  end%string.

(** [move.includes("'")] *)
Definition includes_prime (m : MoveType) : bool :=
  match m with
  | U' | D' | L' | R' | F' | B' => true
  | _ => false
  end.

(** The primed counterpart of a move (and the plain one of a primed move). *)
Definition counterpart (m : MoveType) : MoveType :=
  match m with
  | U => U' | U' => U | D => D' | D' => D | L => L' | L' => L
  | R => R' | R' => R | F => F' | F' => F | B => B' | B' => B
  end.

(** JavaScript [===] on numbers. *)
Definition num_eq (a b : Q) : bool := Qeq_bool a b.

Definition Qltb (a b : Q) : bool := negb (Qle_bool b a).

(** [Math.PI], the double nearest to pi. *)
Definition Math_PI : Q := 884279719003555 # 281474976710656.

(** [Math.abs], [Math.sign], [Math.max] and [Math.round] are exact on
    doubles; [Math.round] rounds halves towards plus infinity. *)
Definition Math_abs (n : Q) : Q := Qabs n.

Definition Math_sign (n : Q) : Q :=
  match Qnum n with
  | Z0 => 0
  | Zpos _ => 1
  | Zneg _ => -1
  end.

Definition Math_max (a b : Q) : Q := if Qle_bool a b then b else a.

Definition Math_round (n : Q) : Q := inject_Z (Qfloor (n + (1 # 2))).

(* ================================================================== *)
(** * Doubles

    The numbers of THREE's rotation code are IEEE binary64 values: the
    primitive [float], whose operations round to nearest, ties to even, as
    JavaScript's do. *)

(** An integer below 2^63 in absolute value, as the nearest double. *)
Definition double_of_Z (z : Z) : float :=
  if (z <? 0)%Z then (- of_uint63 (Uint63.of_Z (- z)))%float
  else of_uint63 (Uint63.of_Z z).

Fixpoint is_pow2 (p : positive) : bool :=
  match p with
  | xH => true
  | xO p' => is_pow2 p'
  | xI _ => false
  end.

(** The rational [q] as a double, when it is one: a numerator below 2^53
    over a power of two up to 2^62 (the two integers are doubles, and so is
    their quotient). *)
Definition toDouble (q : Q) : option float :=
  if (Z.abs (Qnum q) <? 2 ^ 53)%Z && is_pow2 (Qden q)
     && (Z.pos (Qden q) <? 2 ^ 63)%Z
  then Some (double_of_Z (Qnum q) / double_of_Z (Z.pos (Qden q)))%float
  else None.

(** The sign bit of a double (it tells -0 from 0). *)
Definition isNegative (x : float) : bool := (1 / x <? 0)%float.

(** [Math.abs], [Math.min] and [Math.max] on doubles. *)
Definition Math_abs_d (x : float) : float := abs x.

Definition Math_min_d (a b : float) : float :=
  if is_nan a then a
  else if is_nan b then b
  else if (a <? b)%float then a
  else if (b <? a)%float then b
  else if isNegative a then a else b.

Definition Math_max_d (a b : float) : float :=
  if is_nan a then a
  else if is_nan b then b
  else if (a <? b)%float then b
  else if (b <? a)%float then a
  else if isNegative a then b else a.

(** [Math.floor] of a finite double, as the integer it is (0 where the
    double is not finite). *)
Definition Math_floor_d (x : float) : Z :=
  match Prim2SF x with
  | S754_finite s m e =>
      let v := if s then Z.neg m else Z.pos m in
      if (0 <=? e)%Z then (v * 2 ^ e)%Z else (v / 2 ^ (- e))%Z
  | _ => 0%Z
  end.

(** [array.length] as the double it is. *)
Definition length_d {A : Type} (l : list A) : float :=
  double_of_Z (Z.of_nat (List.length l)).

(** A small option monad for the steps that can fail. *)
Definition obind {A B : Type} (o : option A) (f : A -> option B) : option B :=
  match o with
  | Some a => f a
  | None => None
  end.

Notation "x <- e ;; k" := (obind e (fun x => k))
  (at level 61, e at next level, right associativity).

(* ================================================================== *)
(** * A reference host

    Rational stand-ins for the host's [Math.cos], [Math.sin] and
    [Math.sqrt]: Taylor sums of 15 terms whose terms are cut to 64
    fractional bits, and the square root to 53 fractional bits.  They show
    that what the Section [Host] assumes of a host can be met, and they run
    the examples. *)

Definition fix64 (q : Q) : Q := Qred (Qfloor (q * inject_Z (2 ^ 64)) # 2 ^ 64).

Fixpoint taylor (fuel : nat) (k : Z) (term acc x2 : Q) : Q :=
  match fuel with
  | O => acc
  | S fuel' =>
      let term' := fix64 (- (term * x2) / inject_Z ((k + 1) * (k + 2))) in
      taylor fuel' (k + 2) term' (Qred (acc + term')) x2
  end.

Definition ref_cos (a : Q) : Q := taylor 14 0 1 1 (fix64 (a * a)).
Definition ref_sin (a : Q) : Q := taylor 14 1 a a (fix64 (a * a)).

Definition ref_sqrt (q : Q) : Q :=
  Qred (Z.sqrt (Qnum q * 2 ^ 106 / Z.pos (Qden q)) # 2 ^ 53).

Local Open Scope float_scope.

(** ** The reference host on doubles

    [Math.sin], [Math.cos], [Math.atan2] and [Math.asin] as fdlibm computes
    them (k_sin.c, k_cos.c, e_rem_pio2.c, s_sin.c, s_cos.c, s_atan.c,
    e_atan2.c, e_asin.c), the library V8 takes its [ieee754] functions
    from.  The argument reduction is the one for arguments below 3 pi / 4
    in absolute value, which covers the half angles of the commit; beyond
    that the sine and the cosine are left as NaN. *)

(** The high word of a double as fdlibm reads it, without the sign: the
    biased exponent and the upper 20 bits of the fraction (zero and normal
    numbers). *)
Definition absHighWord (x : float) : Z :=
  let '(f, e) := frshiftexp (abs x) in
  let m := Uint63.to_Z (normfr_mantissa f) in
  let biased := (Uint63.to_Z e - FloatOps.shift + 1022)%Z in
  if (m =? 0)%Z || (biased <=? 0)%Z then 0%Z
  else (biased * 2 ^ 20 + (m - 2 ^ 52) / 2 ^ 32)%Z.

(** The double with its low word cleared. *)
Definition clearLowWord (x : float) : float :=
  let '(f, e) := frshiftexp x in
  let m := Uint63.to_Z (normfr_mantissa (abs f)) in
  let r := ldshiftexp (of_uint63 (Uint63.of_Z (m / 2 ^ 32 * 2 ^ 32)))
                      (Uint63.sub e (Uint63.of_Z 53)) in
  if isNegative x then - r else r.

Definition isFinite (x : float) : bool := negb (is_nan x || is_infinity x).

Definition kernel_sin (x y : float) (iy : bool) : float :=
  if (absHighWord x <? 0x3e400000)%Z then x
  else
    let z := x * x in
    let v := z * x in
    let r := 0x1.111111110f8a6p-7
             + z * (-0x1.a01a019c161d5p-13
                    + z * (0x1.71de357b1fe7dp-19
                           + z * (-0x1.ae5e68a2b9cebp-26
                                  + z * 0x1.5d93a5acfd57cp-33))) in
    if iy then x - ((z * (0.5 * y - v * r) - y) - v * -0x1.5555555555549p-3)
    else x + v * (-0x1.5555555555549p-3 + z * r).

Definition kernel_cos (x y : float) : float :=
  let ix := absHighWord x in
  if (ix <? 0x3e400000)%Z then 1
  else
    let z := x * x in
    let r := z * (0x1.555555555554cp-5
                  + z * (-0x1.6c16c16c15177p-10
                         + z * (0x1.a01a019cb1590p-16
                                + z * (-0x1.27e4f809c52adp-22
                                       + z * (0x1.1ee9ebdb4b1c4p-29
                                              + z * -0x1.8fae9be8838d4p-37))))) in
    if (ix <? 0x3FD33333)%Z then 1 - (0.5 * z - (z * r - x * y))
    else
      let qx := if (0x3fe90000 <? ix)%Z then 0.28125
                else clearLowWord (abs x) / 4 in
      let hz := 0.5 * z - qx in
      let a := 1 - qx in
      a - (hz - (z * r - x * y)).

(** [__ieee754_rem_pio2] below 3 pi / 4. *)
Definition rem_pio2 (x : float) : option (Z * float * float) :=
  let ix := absHighWord x in
  let pio2_1 := 0x1.921fb54400000p+0 in
  let pio2_1t := 0x1.0b4611a626331p-34 in
  let pio2_2 := 0x1.0b4611a600000p-34 in
  let pio2_2t := 0x1.3198a2e037073p-69 in
  if (ix <=? 0x3fe921fb)%Z then Some (0%Z, x, 0)
  else if (ix <? 0x4002d97c)%Z then
    if isNegative x then
      let z := x + pio2_1 in
      if negb (ix =? 0x3ff921fb)%Z then
        let y0 := z + pio2_1t in Some ((-1)%Z, y0, (z - y0) + pio2_1t)
      else
        let z := z + pio2_2 in
        let y0 := z + pio2_2t in Some ((-1)%Z, y0, (z - y0) + pio2_2t)
    else
      let z := x - pio2_1 in
      if negb (ix =? 0x3ff921fb)%Z then
        let y0 := z - pio2_1t in Some (1%Z, y0, (z - y0) - pio2_1t)
      else
        let z := z - pio2_2 in
        let y0 := z - pio2_2t in Some (1%Z, y0, (z - y0) - pio2_2t)
  else None.

Definition fdlibm_sin (x : float) : float :=
  if negb (isFinite x) then nan
  else if (absHighWord x <=? 0x3fe921fb)%Z then kernel_sin x 0 false
  else
    match rem_pio2 x with
    | Some (n, y0, y1) =>
        match (n mod 4)%Z with
        | 0%Z => kernel_sin y0 y1 true
        | 1%Z => kernel_cos y0 y1
        | 2%Z => - kernel_sin y0 y1 true
        | _ => - kernel_cos y0 y1
        end
    | None => nan
    end.

Definition fdlibm_cos (x : float) : float :=
  if negb (isFinite x) then nan
  else if (absHighWord x <=? 0x3fe921fb)%Z then kernel_cos x 0
  else
    match rem_pio2 x with
    | Some (n, y0, y1) =>
        match (n mod 4)%Z with
        | 0%Z => kernel_cos y0 y1
        | 1%Z => - kernel_sin y0 y1 true
        | 2%Z => - kernel_cos y0 y1
        | _ => kernel_sin y0 y1 true
        end
    | None => nan
    end.

Definition fdlibm_atan (x0 : float) : float :=
  let ix := absHighWord x0 in
  let neg := isNegative x0 in
  let atanhi3 := 0x1.921fb54442d18p+0 in
  let atanlo3 := 0x1.1a62633145c07p-54 in
  if is_nan x0 then nan
  else if (0x44100000 <=? ix)%Z || is_infinity x0 then
    if neg then - atanhi3 - atanlo3 else atanhi3 + atanlo3
  else
    let poly (x : float) : float :=
      let z := x * x in
      let w := z * z in
      let s1 := z * (0x1.555555555550dp-2
                     + w * (0x1.24924920083ffp-3
                            + w * (0x1.745cdc54c206ep-4
                                   + w * (0x1.10d66a0d03d51p-4
                                          + w * (0x1.97b4b24760debp-5
                                                 + w * 0x1.0ad3ae322da11p-6))))) in
      let s2 := w * (-0x1.999999998ebc4p-3
                     + w * (-0x1.c71c6fe231671p-4
                            + w * (-0x1.3b0f2af749a6dp-4
                                   + w * (-0x1.dde2d52defd9ap-5
                                          + w * -0x1.2b4442c6a6c2fp-5)))) in
      x * (s1 + s2) in
    if (ix <? 0x3fdc0000)%Z then
      if (ix <? 0x3e200000)%Z then x0 else x0 - poly x0
    else
      let a := abs x0 in
      let '(hi, lo, x) :=
        if (ix <? 0x3ff30000)%Z then
          if (ix <? 0x3fe60000)%Z
          then (0x1.dac670561bb4fp-2, 0x1.a2b7f222f65e2p-56,
                (2 * a - 1) / (2 + a))
          else (0x1.921fb54442d18p-1, 0x1.1a62633145c07p-55,
                (a - 1) / (a + 1))
        else
          if (ix <? 0x40038000)%Z
          then (0x1.f730bd281f69bp-1, 0x1.007887af0cbbdp-56,
                (a - 1.5) / (1 + 1.5 * a))
          else (atanhi3, atanlo3, -1 / a) in
      let z := hi - ((poly x - lo) - x) in
      if neg then - z else z.

Definition fdlibm_atan2 (y x : float) : float :=
  let pi := 0x1.921fb54442d18p+1 in
  let pi_o_2 := 0x1.921fb54442d18p+0 in
  let pi_lo := 0x1.1a62633145c07p-53 in
  if negb (isFinite x && isFinite y) then nan
  else if (x =? 1) && negb (isNegative x) then fdlibm_atan y
  else
    let sy := isNegative y in
    let sx := isNegative x in
    if (y =? 0) then (if sx then (if sy then - pi else pi) else y)
    else if (x =? 0) then (if sy then - pi_o_2 else pi_o_2)
    else
      let k := ((absHighWord y - absHighWord x) / 2 ^ 20)%Z in
      let z := if (60 <? k)%Z then pi_o_2 + 0.5 * pi_lo
               else if sx && (k <? -60)%Z then 0
               else fdlibm_atan (abs (y / x)) in
      match sx, sy with
      | false, false => z
      | false, true => - z
      | true, false => pi - (z - pi_lo)
      | true, true => (z - pi_lo) - pi
      end.

Definition fdlibm_asin (x : float) : float :=
  let ix := absHighWord x in
  let pio2_hi := 0x1.921fb54442d18p+0 in
  let pio2_lo := 0x1.1a62633145c07p-54 in
  let pio4_hi := 0x1.921fb54442d18p-1 in
  let P (t : float) : float :=
    t * (0x1.5555555555555p-3
         + t * (-0x1.4d61203eb6f7dp-2
                + t * (0x1.9c1550e884455p-3
                       + t * (-0x1.48228b5688f3bp-5
                              + t * (0x1.9efe07501b288p-11
                                     + t * 0x1.23de10dfdf709p-15))))) in
  let Q (t : float) : float :=
    1 + t * (-0x1.33a271c8a2d4bp+1
             + t * (0x1.02ae59c598ac8p+1
                    + t * (-0x1.6066c1b8d0159p-1
                           + t * 0x1.3b8c5b12e9282p-4))) in
  if is_nan x then nan
  else if (0x3ff00000 <=? ix)%Z || is_infinity x then
    if (abs x =? 1) then x * pio2_hi + x * pio2_lo else nan
  else if (ix <? 0x3fe00000)%Z then
    if (ix <? 0x3e400000)%Z then x
    else let t := x * x in x + x * (P t / Q t)
  else
    let w := 1 - abs x in
    let t := w * 0.5 in
    let p := P t in
    let q := Q t in
    let s := sqrt t in
    let r :=
      if (0x3FEF3333 <=? ix)%Z then
        pio2_hi - (2 * (s + s * (p / q)) - pio2_lo)
      else
        let w := clearLowWord s in
        let c := (t - w * w) / (s + w) in
        let r := p / q in
        let p := 2 * s * r - (pio2_lo - 2 * c) in
        let q := pio4_hi - 2 * w in
        pio4_hi - (p - q) in
    if isNegative x then - r else r.

Local Close Scope float_scope.

(* ================================================================== *)
(** * utils/cubeMath.ts *)

Definition round (n : Q) : Q := Math_round n.

Definition roundVector (v : Vector3) : Vector3 :=
  let '(v0, v1, v2) := v in (round v0, round v1, round v2).

Section Host.

(** The host's [Math.cos], [Math.sin] and [Math.sqrt], on the rational
    side. *)
Variables Math_cos Math_sin Math_sqrt : Q -> Q.

(** The host's [Math.cos], [Math.sin], [Math.asin] and [Math.atan2], on
    doubles. *)
Variables Math_cos_d Math_sin_d Math_asin_d : float -> float.
Variable Math_atan2_d : float -> float -> float.

Definition rotateX (point : Vector3) (angle : Q) : Vector3 :=
  let '(x, y, z) := point in
  let cos := Math_cos angle in
  let sin := Math_sin angle in
  (x, y * cos - z * sin, y * sin + z * cos).

Definition rotateY (point : Vector3) (angle : Q) : Vector3 :=
  let '(x, y, z) := point in
  let cos := Math_cos angle in
  let sin := Math_sin angle in
  (x * cos + z * sin, y, - x * sin + z * cos).

Definition rotateZ (point : Vector3) (angle : Q) : Vector3 :=
  let '(x, y, z) := point in
  let cos := Math_cos angle in
  let sin := Math_sin angle in
  (x * cos - y * sin, x * sin + y * cos, z).

Definition rotateAxis (axis : Axis) (p : Vector3) (angle : Q) : Vector3 :=
  match axis with
  | ax_x => rotateX p angle
  | ax_y => rotateY p angle
  | ax_z => rotateZ p angle
  end.

Definition getRotationResult (pos : Vector3) (axis : Axis) (direction : Q)
  : Vector3 :=
  let angle := direction * (Math_PI / 2) in
  let newPos := rotateAxis axis pos angle in
  roundVector newPos.

(* ------------------------------------------------------------------ *)
(** ** THREE.Vector3, on coordinates *)

Definition vsub (a b : Vector3) : Vector3 :=
  let '(ax, ay, az) := a in let '(bx, by_, bz) := b in
  (ax - bx, ay - by_, az - bz).

Definition vadd (a b : Vector3) : Vector3 :=
  let '(ax, ay, az) := a in let '(bx, by_, bz) := b in
  (ax + bx, ay + by_, az + bz).

Definition multiplyScalar (v : Vector3) (k : Q) : Vector3 :=
  let '(x, y, z) := v in (x * k, y * k, z * k).

Definition dot (a b : Vector3) : Q :=
  let '(ax, ay, az) := a in let '(bx, by_, bz) := b in
  ax * bx + ay * by_ + az * bz.

Definition lengthSq (v : Vector3) : Q := dot v v.

Definition crossVectors (a b : Vector3) : Vector3 :=
  let '(ax, ay, az) := a in let '(bx, by_, bz) := b in
  (ay * bz - az * by_, az * bx - ax * bz, ax * by_ - ay * bx).

(** [v.normalize()] is [v.divideScalar(v.length() || 1)]. *)
Definition normalize (v : Vector3) : Vector3 :=
  let len := Math_sqrt (lengthSq v) in
  let len := if num_eq len 0 then 1 else len in
  multiplyScalar v (1 / len).

(* ------------------------------------------------------------------ *)
(** ** THREE.Quaternion and THREE.Euler (rotation order 'XYZ'), on doubles *)

Record Quaternion : Type := quat { _x : float; _y : float; _z : float; _w : float }.

(** [Quaternion.setFromEuler], case 'XYZ'. *)
Definition setFromEuler (euler : Vector3d) : Quaternion :=
  let '(x, y, z) := euler in
  (let c1 := Math_cos_d (x / 2) in
   let c2 := Math_cos_d (y / 2) in
   let c3 := Math_cos_d (z / 2) in
   let s1 := Math_sin_d (x / 2) in
   let s2 := Math_sin_d (y / 2) in
   let s3 := Math_sin_d (z / 2) in
   quat (s1 * c2 * c3 + c1 * s2 * s3)
        (c1 * s2 * c3 - s1 * c2 * s3)
        (c1 * c2 * s3 + s1 * s2 * c3)
        (c1 * c2 * c3 - s1 * s2 * s3))%float.

(** [Quaternion.setFromAxisAngle]; the axis is one of the unit vectors. *)
Definition setFromAxisAngle (axis : Vector3d) (angle : float) : Quaternion :=
  let '(ax, ay, az) := axis in
  (let halfAngle := angle / 2 in
   let s := Math_sin_d halfAngle in
   quat (ax * s) (ay * s) (az * s) (Math_cos_d halfAngle))%float.

(** [Quaternion.multiplyQuaternions(a, b)]. *)
Definition multiplyQuaternions (a b : Quaternion) : Quaternion :=
  let '(quat qax qay qaz qaw) := a in
  let '(quat qbx qby qbz qbw) := b in
  (quat (qax * qbw + qaw * qbx + qay * qbz - qaz * qby)
        (qay * qbw + qaw * qby + qaz * qbx - qax * qbz)
        (qaz * qbw + qaw * qbz + qax * qby - qay * qbx)
        (qaw * qbw - qax * qbx - qay * qby - qaz * qbz))%float.

(** [this.premultiply(q)] is [multiplyQuaternions(q, this)]. *)
Definition premultiply (this q : Quaternion) : Quaternion :=
  multiplyQuaternions q this.

(** [this.multiply(q)] is [multiplyQuaternions(this, q)]; the source never
    calls it, it is here for comparison. *)
Definition multiply (this q : Quaternion) : Quaternion :=
  multiplyQuaternions this q.

(** The upper 3x3 block of [Matrix4.makeRotationFromQuaternion] (which is
    [compose] with the scale [1, 1, 1]), row by row. *)
Definition Matrix3 : Type := (Vector3d * Vector3d * Vector3d)%type.

Definition makeRotationFromQuaternion (q : Quaternion) : Matrix3 :=
  let '(quat x y z w) := q in
  (let x2 := x + x in let y2 := y + y in let z2 := z + z in
   let xx := x * x2 in let xy := x * y2 in let xz := x * z2 in
   let yy := y * y2 in let yz := y * z2 in let zz := z * z2 in
   let wx := w * x2 in let wy := w * y2 in let wz := w * z2 in
   (((1 - (yy + zz)) * 1, (xy - wz) * 1, (xz + wy) * 1),
    ((xy + wz) * 1, (1 - (xx + zz)) * 1, (yz - wx) * 1),
    ((xz - wy) * 1, (yz + wx) * 1, (1 - (xx + yy)) * 1)))%float.

(** [MathUtils.clamp(value, min, max)] is [max(min, min(max, value))]. *)
Definition clamp (value lo hi : float) : float :=
  Math_max_d lo (Math_min_d hi value).

(** [Euler.setFromRotationMatrix], case 'XYZ'; the threshold is the double
    the literal [0.9999999] denotes. *)
Definition setFromRotationMatrix (m : Matrix3) : Vector3d :=
  let '((m11, m12, m13), (m21, m22, m23), (m31, m32, m33)) := m in
  (let y := Math_asin_d (clamp m13 (-1) 1) in
   if Math_abs_d m13 <? 0x1.fffffca501acbp-1 then
     (Math_atan2_d (- m23) m33, y, Math_atan2_d (- m12) m11)
   else
     (Math_atan2_d m32 m22, y, 0))%float.

(** [Euler.setFromQuaternion]. *)
Definition setFromQuaternion (q : Quaternion) : Vector3d :=
  setFromRotationMatrix (makeRotationFromQuaternion q).

(* ================================================================== *)
(** * components/RubiksCube.tsx *)

(** The three nested loops [for (let x = -1; x <= 1; x++) ...]. *)
Definition loop3 : list Q := [-1; 0; 1].

Definition grid : list Vector3 :=
  flat_map (fun x => flat_map (fun y => map (fun z => (x, y, z)) loop3) loop3)
           loop3.

(** [generateSolvedCube]: every push takes the next [id++]. *)
Definition generateSolvedCube : list CubieData :=
  snd (fold_left
         (fun (st : nat * list CubieData) (pos : Vector3) =>
            let '(next_id, cubies) := st in
            (S next_id, cubies ++ [mkCubie next_id pos (0, 0, 0)%float pos]))
         grid (O, [])).

Definition ANIMATION_SPEED : Q := 15 # 100.
Definition TOTAL_ROTATION : Q := Math_PI / 2.

(** The record held by the [currentMove] ref. *)
Record CurrentMove : Type := mkMove {
  type : MoveType;
  axis : Axis;
  layer : Q;
  direction : Q;
  progress : Q;
  activeCubieIds : list nat
}.

(** The component's state: the [useState] cells, the three refs, and the
    list last handed to [onSelectionChange] (App's [availableFaces]).  A
    [setCubies] takes effect at once: the frame callback always reads the
    cubies of the last commit or reset. *)
Record State : Type := mkState {
  cubies : list CubieData;
  selectedCubieId : option nat;
  clickedFaceNormal : option Vector3;
  isAnimating : bool;
  animationQueue : list MoveType;
  currentMove : option CurrentMove;
  availableFaces : list string
}.

Definition initialState : State :=
  mkState generateSolvedCube None None false [] None [].

(** [c.position[axis === 'x' ? 0 : axis === 'y' ? 1 : 2]] *)
Definition component (a : Axis) (v : Vector3) : Q :=
  let '(v0, v1, v2) := v in
  match a with ax_x => v0 | ax_y => v1 | ax_z => v2 end.

Definition getCubiesInLayer (a : Axis) (l : Q) (currentCubies : list CubieData)
  : list nat :=
  map id (filter (fun c => num_eq (Math_round (component a (position c))) l)
                 currentCubies).

Definition triggerRotate (move : MoveType) (s : State) : State :=
  mkState (cubies s) (selectedCubieId s) (clickedFaceNormal s) (isAnimating s)
          (animationQueue s ++ [move]) (currentMove s) (availableFaces s).

Definition resetCube (s : State) : State :=
  mkState generateSolvedCube None None false [] None [].

(** [scrambleCube]; [random i] is the double [Math.random()] returns on
    the i-th round of the loop, and the product is the rounded one. *)
Definition scramble_moves : list MoveType :=
  [U; D; L; R; F; B; U'; D'; L'; R'; F'; B'].

Definition scrambleCube (random : nat -> float) (s : State) : State :=
  let s' :=
    fold_left
      (fun st i =>
         let k := Z.to_nat (Math_floor_d (random i * length_d scramble_moves)) in
         triggerRotate (nth k scramble_moves U) st)
      (seq 0 25) s in
  mkState (cubies s') None None (isAnimating s') (animationQueue s')
          (currentMove s') (availableFaces s').

(** The normal snap of [handleCubieClick]: [snapped] from [e.normal]. *)
Definition snapped (normal : Vector3) : Vector3 :=
  let '(nx, ny, nz) := normalize normal in
  let maxComp := Math_max (Math_max (Math_abs nx) (Math_abs ny)) (Math_abs nz) in
  (if num_eq (Math_abs nx) maxComp then Math_sign nx else 0,
   if num_eq (Math_abs ny) maxComp then Math_sign ny else 0,
   if num_eq (Math_abs nz) maxComp then Math_sign nz else 0).

(** The list [validFaces] of [handleCubieClick], push after push. *)
Definition validFaces (pos : Vector3) : list string :=
  let '(x, y, z) := roundVector pos in
  List.concat
    [ if num_eq x 1 then ["R"] else [];
      if num_eq x (-1) then ["L"] else [];
      if num_eq y 1 then ["U"] else [];
      if num_eq y (-1) then ["D"] else [];
      if num_eq z 1 then ["F"] else [];
      if num_eq z (-1) then ["B"] else [];
      if num_eq x 0 && num_eq y 0 && num_eq z 1 then ["F"] else [];
      if num_eq x 0 && num_eq y 0 && num_eq z (-1) then ["B"] else [];
      if num_eq x 1 && num_eq y 0 && num_eq z 0 then ["R"] else [];
      if num_eq x (-1) && num_eq y 0 && num_eq z 0 then ["L"] else [];
      if num_eq x 0 && num_eq y 1 && num_eq z 0 then ["U"] else [];
      if num_eq x 0 && num_eq y (-1) && num_eq z 0 then ["D"] else [] ]%string.

(** [handleCubieClick(e, cubie)]; [normal] is [e.normal], absent or not. *)
Definition handleCubieClick (normal : option Vector3) (cubie : CubieData)
  (s : State) : State :=
  if isAnimating s then s
  else
    mkState (cubies s) (Some (id cubie))
            (match normal with
             | Some n => Some (snapped n)
             | None => clickedFaceNormal s
             end)
            (isAnimating s) (animationQueue s) (currentMove s)
            (validFaces (position cubie)).

(** The [switch (move[0])] of the frame loop, with its initial values when
    no case matches, then the sign flip of a primed move. *)
Definition parseMove (move : MoveType) : Axis * Q * Q :=
  let h := move_head move in
  let '(a, l, d) :=
    if String.eqb h "R" then (ax_x, 1, -1)
    else if String.eqb h "L" then (ax_x, -1, 1)
    else if String.eqb h "U" then (ax_y, 1, -1)
    else if String.eqb h "D" then (ax_y, -1, 1)
    else if String.eqb h "F" then (ax_z, 1, -1)
    else if String.eqb h "B" then (ax_z, -1, 1)
    else (ax_y, 0, 1) in
  (a, l, if includes_prime move then d * -1 else d).

Definition axisVec (a : Axis) : Vector3 :=
  (match a with ax_x => 1 | _ => 0 end,
   match a with ax_y => 1 | _ => 0 end,
   match a with ax_z => 1 | _ => 0 end).

(** The same vector as THREE holds it, in doubles. *)
Definition axisVec_d (a : Axis) : Vector3d :=
  (match a with ax_x => 1 | _ => 0 end,
   match a with ax_y => 1 | _ => 0 end,
   match a with ax_z => 1 | _ => 0 end)%float.

(** [activeCubieIds.includes(c.id)] *)
Definition includes (ids : list nat) (i : nat) : bool := existsb (Nat.eqb i) ids.

(** The body of [prevCubies.map(c => ...)] in the commit.  The position
    is turned on the rational side and rounded; the orientation goes
    through THREE on doubles, at the same angle. *)
Definition commitCubie (a : Axis) (angle : Q) (ids : list nat) (c : CubieData)
  : option CubieData :=
  if negb (includes ids (id c)) then Some c
  else
    let newPos := roundVector (rotateAxis a (position c) angle) in
    angle_d <- toDouble angle ;;
    let objQuat := setFromEuler (rotation c) in
    let rotQuat := setFromAxisAngle (axisVec_d a) angle_d in
    let objQuat := premultiply objQuat rotQuat in
    let newEuler := setFromQuaternion objQuat in
    Some (mkCubie (id c) newPos newEuler (initialPosition c)).

Fixpoint map_option {A B : Type} (f : A -> option B) (l : list A)
  : option (list B) :=
  match l with
  | [] => Some []
  | a :: l' => b <- f a ;; bs <- map_option f l' ;; Some (b :: bs)
  end.

Definition commitMove (a : Axis) (angle : Q) (ids : list nat)
  (prevCubies : list CubieData) : option (list CubieData) :=
  map_option (commitCubie a angle ids) prevCubies.

(** Step 1 of the frame callback: when idle with a non-empty queue, shift
    the head of the queue and make it the current move. *)
Definition beginMove (s : State) : State :=
  if negb (isAnimating s) && (0 <? List.length (animationQueue s))%nat then
    match animationQueue s with
    | move :: rest =>
        let '(a, l, d) := parseMove move in
        let activeIds := getCubiesInLayer a l (cubies s) in
        mkState (cubies s) (selectedCubieId s) (clickedFaceNormal s) true rest
                (Some (mkMove move a l d 0 activeIds)) (availableFaces s)
    | [] => s
    end
  else s.

(** Step 2: advance the current move and commit it once the progress has
    reached [TOTAL_ROTATION]. *)
Definition advanceMove (s : State) : option State :=
  match isAnimating s, currentMove s with
  | true, Some cm =>
      let speed :=
        if (5 <? List.length (animationQueue s))%nat
        then ANIMATION_SPEED * 4 else ANIMATION_SPEED in
      let cm' := mkMove (type cm) (axis cm) (layer cm) (direction cm)
                        (progress cm + speed) (activeCubieIds cm) in
      if Qle_bool TOTAL_ROTATION (progress cm') then
        let angle := direction cm' * (Math_PI / 2) in
        cubies' <- commitMove (axis cm') angle (activeCubieIds cm') (cubies s) ;;
        Some (mkState cubies' (selectedCubieId s) (clickedFaceNormal s) false
                      (animationQueue s) None (availableFaces s))
      else
        Some (mkState (cubies s) (selectedCubieId s) (clickedFaceNormal s)
                      (isAnimating s) (animationQueue s) (Some cm')
                      (availableFaces s))
  | _, _ => Some s
  end.

(** The callback given to [useFrame]: one scheduler tick. *)
Definition useFrame (s : State) : option State := advanceMove (beginMove s).

(* ================================================================== *)
(** * components/ArrowIndicators.tsx *)

(** The props handed to one [ArrowMesh]. *)
Record Arrow : Type := mkArrow {
  key : string;
  arrow_position : Vector3;
  arrow_direction : Vector3;
  label : MoveType;
  color : string
}.

(** The move code as the string it is. *)
Definition code (m : MoveType) : string :=
  match m with
  | U => "U" | U' => "U'" | D => "D" | D' => "D'"
  | L => "L" | L' => "L'" | R => "R" | R' => "R'"
  | F => "F" | F' => "F'" | B => "B" | B' => "B'"
  end%string.

(** The move code with its prime removed ([moveCode.replace]). *)
Definition baseCode (m : MoveType) : string :=
  match m with
  | U | U' => "U" | D | D' => "D" | L | L' => "L"
  | R | R' => "R" | F | F' => "F" | B | B' => "B"
  end%string.

Definition Qgtb (a b : Q) : bool := Qltb b a.

(** ** The revision that takes the clicked face normal (the one
       [RubiksCube] renders) *)

Definition FACE_OFFSET : Q := 6 # 10.
Definition RING_OFFSET : Q := 35 # 100.

Definition moveDefs : list (string * (Axis * Q)) :=
  [ ("R", (ax_x, -1)); ("L", (ax_x, 1));
    ("U", (ax_y, -1)); ("D", (ax_y, 1));
    ("F", (ax_z, -1)); ("B", (ax_z, 1)) ]%string.

Definition lookup_def (k : string) : option (Axis * Q) :=
  option_map snd (find (fun kv => String.eqb (fst kv) k) moveDefs).

(** [generateArrow(moveCode)] for the cubie at [(x, y, z)]: the arrows it
    pushes (none or one). *)
Definition generateArrow (cubiePosition clickedFaceNormal : Vector3)
  (moveCode : MoveType) : list Arrow :=
  let '(x, y, z) := cubiePosition in
  let normalVec := clickedFaceNormal in
  let base := baseCode moveCode in
  match lookup_def base with
  | None => []
  | Some (def_axis, def_dir) =>
    let effectiveDir := if includes_prime moveCode then def_dir * -1 else def_dir in
    let isAffected :=
      (String.eqb base "R" && num_eq x 1)
      || (String.eqb base "L" && num_eq x (-1))
      || (String.eqb base "U" && num_eq y 1)
      || (String.eqb base "D" && num_eq y (-1))
      || (String.eqb base "F" && num_eq z 1)
      || (String.eqb base "B" && num_eq z (-1)) in
    if negb isAffected then []
    else
      let startPos := (x, y, z) in
      let nextPos := getRotationResult (x, y, z) def_axis effectiveDir in
      let displacement := vsub nextPos startPos in
      if Qltb (lengthSq displacement) (1 # 10) then
        (* Case A: a centre piece turning in place *)
        let axisV := axisVec def_axis in
        if Qgtb (Math_abs (dot axisV normalVec)) (9 # 10) then
          let up :=
            if Qgtb (Math_abs (snd (fst normalVec))) (9 # 10)
            then (0, 0, -1) else (0, 1, 0) in
          (* [up.applyAxisAngle(axisVec, 0)] turns [up] by the angle 0 *)
          let ringPos := vadd startPos (multiplyScalar up RING_OFFSET) in
          let radius := vsub ringPos startPos in
          let tangent :=
            normalize (multiplyScalar (crossVectors axisV radius) effectiveDir) in
          let ringPos := vadd ringPos (multiplyScalar normalVec FACE_OFFSET) in
          [mkArrow (code moveCode ++ "-center") ringPos tangent moveCode "#ffffff"]
        else []
      else
        (* Case B: an edge or a corner sliding along the clicked face *)
        let d := dot (normalize displacement) normalVec in
        if Qgtb (Math_abs d) (1 # 10) then []
        else
          let dir := normalize displacement in
          let arrowPos := vadd startPos (multiplyScalar normalVec FACE_OFFSET) in
          let arrowPos := vadd arrowPos (multiplyScalar dir (4 # 10)) in
          [mkArrow (code moveCode ++ "-edge") arrowPos dir moveCode "#4ade80"]
  end%string.

(** The component: [generateArrow] over the twelve codes, in its order. *)
Definition ArrowIndicators (cubiePosition clickedFaceNormal : Vector3)
  : list Arrow :=
  flat_map (generateArrow cubiePosition clickedFaceNormal)
           [R; R'; L; L'; U; U'; D; D'; F; F'; B; B'].

(** ** The older revision, without the face normal
       ([src/components/ArrowIndicators.tsx]) *)

Definition FACE_OFFSET_0 : Q := 52 # 100.
Definition EDGE_OFFSET : Q := 42 # 100.

(** [moveCode.startsWith(...)] chain of [addArrow], then the prime. *)
Definition targetOf (moveCode : MoveType) : Axis * Q :=
  let c := code moveCode in
  let '(targetAxis, targetDir) :=
    if String.prefix "R"%string c then (ax_x, -1)
    else if String.prefix "L"%string c then (ax_x, 1)
    else if String.prefix "U"%string c then (ax_y, -1)
    else if String.prefix "D"%string c then (ax_y, 1)
    else if String.prefix "F"%string c then (ax_z, -1)
    else if String.prefix "B"%string c then (ax_z, 1)
    else (ax_x, 1) in
  (targetAxis, if includes_prime moveCode then targetDir * -1 else targetDir).

(** The tangent snap of the edge / corner case: [moveDir] after the face
    component is zeroed and a diagonal is reduced to one axis. *)
Definition tangentSnap (axisName : Axis) (cubiePosition moveDir : Vector3)
  : Vector3 :=
  let '(x, y, z) := cubiePosition in
  let '(mx, my, mz) := moveDir in
  let mx := match axisName with ax_x => 0 | _ => mx end in
  let my := match axisName with ax_y => 0 | _ => my end in
  let mz := match axisName with ax_z => 0 | _ => mz end in
  let big (q : Q) := Qgtb (Math_abs q) (1 # 10) in
  let edge (q : Q) := Qgtb (Math_abs q) (9 # 10) in
  if big mx && big my then (mx, my, mz)
  else if big my && big mz then
    if edge z then (mx, my, 0)
    else if edge y then (mx, 0, mz) else (mx, my, mz)
  else if big mx && big mz then
    if edge z then (mx, my, 0)
    else if edge x then (0, my, mz) else (mx, my, mz)
  else if big mx && big my then
    if edge y then (mx, 0, mz)
    else if edge x then (0, my, mz) else (mx, my, mz)
  else (mx, my, mz).

(** [addArrow(axisName, faceVal, moveCode)]: the arrows it pushes. *)
Definition addArrow (cubiePosition : Vector3) (axisName : Axis) (faceVal : Q)
  (moveCode : MoveType) : list Arrow :=
  let '(x, y, z) := cubiePosition in
  let '(targetAxis, targetDir) := targetOf moveCode in
  let nextPos := getRotationResult cubiePosition targetAxis targetDir in
  let moveDir := vsub nextPos (x, y, z) in
  let isCenter := num_eq (lengthSq moveDir) 0 in
  let c := code moveCode in
  let white (suffix : string) (p d : Vector3) :=
    mkArrow (String.append c suffix) p d moveCode "white"%string in
  if isCenter then
    let isCW := negb (includes_prime moveCode) in
    if negb isCW then []
    else
      match axisName with
      | ax_z =>
          [ white "-t"%string (x, y + EDGE_OFFSET, z + faceVal * FACE_OFFSET_0) (faceVal, 0, 0);
            white "-r"%string (x + EDGE_OFFSET, y, z + faceVal * FACE_OFFSET_0) (0, - faceVal, 0);
            white "-b"%string (x, y - EDGE_OFFSET, z + faceVal * FACE_OFFSET_0) (- faceVal, 0, 0);
            white "-l"%string (x - EDGE_OFFSET, y, z + faceVal * FACE_OFFSET_0) (0, faceVal, 0) ]
      | ax_y =>
          [ white "-t"%string (x, y + faceVal * FACE_OFFSET_0, z - EDGE_OFFSET) (faceVal, 0, 0);
            white "-r"%string (x + EDGE_OFFSET, y + faceVal * FACE_OFFSET_0, z) (0, 0, faceVal);
            white "-b"%string (x, y + faceVal * FACE_OFFSET_0, z + EDGE_OFFSET) (- faceVal, 0, 0);
            white "-l"%string (x - EDGE_OFFSET, y + faceVal * FACE_OFFSET_0, z) (0, 0, - faceVal) ]
      | ax_x =>
          [ white "-t"%string (x + faceVal * FACE_OFFSET_0, y + EDGE_OFFSET, z) (0, 0, faceVal);
            white "-f"%string (x + faceVal * FACE_OFFSET_0, y, z + EDGE_OFFSET) (0, - faceVal, 0);
            white "-b"%string (x + faceVal * FACE_OFFSET_0, y - EDGE_OFFSET, z) (0, 0, - faceVal);
            white "-bk"%string (x + faceVal * FACE_OFFSET_0, y, z - EDGE_OFFSET) (0, faceVal, 0) ]
      end
  else
    let moveDir := normalize (tangentSnap axisName cubiePosition moveDir) in
    let off (a : Axis) : Q :=
      if match a, axisName with
         | ax_x, ax_x | ax_y, ax_y | ax_z, ax_z => true
         | _, _ => false
         end then faceVal * FACE_OFFSET_0 else 0 in
    let arrowPos := (x + off ax_x, y + off ax_y, z + off ax_z) in
    let arrowPos := vadd arrowPos (multiplyScalar moveDir EDGE_OFFSET) in
    [mkArrow c arrowPos moveDir moveCode "#4ade80"%string].

Definition checkAndAdd (cubiePosition : Vector3) (a : Axis) (val : Q)
  (cw ccw : MoveType) : list Arrow :=
  let isCorrectFace := num_eq (component a cubiePosition) val in
  if isCorrectFace
  then addArrow cubiePosition a val cw ++ addArrow cubiePosition a val ccw
  else [].

Definition ArrowIndicators_0 (cubiePosition : Vector3) : list Arrow :=
  let '(x, y, z) := cubiePosition in
  (if num_eq x 1 then checkAndAdd cubiePosition ax_x 1 R R' else [])
  ++ (if num_eq x (-1) then checkAndAdd cubiePosition ax_x (-1) L' L else [])
  ++ (if num_eq y 1 then checkAndAdd cubiePosition ax_y 1 U U' else [])
  ++ (if num_eq y (-1) then checkAndAdd cubiePosition ax_y (-1) D' D else [])
  ++ (if num_eq z 1 then checkAndAdd cubiePosition ax_z 1 F F' else [])
  ++ (if num_eq z (-1) then checkAndAdd cubiePosition ax_z (-1) B' B else []).

(* ================================================================== *)
(** * The cube as the scheduler changes it *)

(** What one committed move does to the cube: the active set is the layer
    snapshot [beginMove] takes, the angle is the one [advanceMove] commits. *)
Definition applyMove (m : MoveType) (cs : list CubieData)
  : option (list CubieData) :=
  let '(a, l, d) := parseMove m in
  commitMove a (d * (Math_PI / 2)) (getCubiesInLayer a l cs) cs.

Fixpoint applyMoves (ms : list MoveType) (cs : list CubieData)
  : option (list CubieData) :=
  match ms with
  | [] => Some cs
  | m :: ms' => cs' <- applyMove m cs ;; applyMoves ms' cs'
  end.

(** [n] scheduler ticks. *)
Fixpoint ticks (n : nat) (s : State) : option State :=
  match n with
  | O => Some s
  | S n' => s' <- useFrame s ;; ticks n' s'
  end.

(* ------------------------------------------------------------------ *)
(** ** Exact quarter turns, for the proofs *)

(** The quarter turn of a lattice point about an axis, in exact arithmetic. *)
Definition turn (a : Axis) (d : Q) (p : Vector3) : Vector3 :=
  let '(x, y, z) := p in
  match a with
  | ax_x => (x, Qred (- (z * d)), Qred (y * d))
  | ax_y => (Qred (z * d), y, Qred (- (x * d)))
  | ax_z => (Qred (- (y * d)), Qred (x * d), z)
  end.

(** The orientation step of the commit, on its own. *)
Definition turnEuler (a : Axis) (angle : float) (e : Vector3d) : Vector3d :=
  let objQuat := setFromEuler e in
  let rotQuat := setFromAxisAngle (axisVec_d a) angle in
  setFromQuaternion (premultiply objQuat rotQuat).

(** Structural equality of rationals and of triples, as booleans. *)
Definition Q_same (a b : Q) : bool :=
  (Qnum a =? Qnum b)%Z && (Qden a =? Qden b)%positive.

Definition V_same (u v : Vector3) : bool :=
  let '(u0, u1, u2) := u in let '(v0, v1, v2) := v in
  Q_same u0 v0 && Q_same u1 v1 && Q_same u2 v2.

Definition memV (v : Vector3) (l : list Vector3) : bool := existsb (V_same v) l.

(** A cubie is well formed when it sits on the lattice. *)
Definition wf (c : CubieData) : Prop := In (position c) grid.

Definition inLayer (a : Axis) (l : Q) (c : CubieData) : bool :=
  num_eq (Math_round (component a (position c))) l.

(** The orientation step at the angle of a move of direction [d]. *)
Definition quarterEuler (a : Axis) (d : Q) (e : Vector3d) : Vector3d :=
  match toDouble (d * (Math_PI / 2)) with
  | Some angle => turnEuler a angle e
  | None => e
  end.

(** A cubie turned by a quarter turn. *)
Definition rotated (a : Axis) (d : Q) (c : CubieData) : CubieData :=
  mkCubie (id c) (turn a d (position c)) (quarterEuler a d (rotation c))
          (initialPosition c).

(** One cubie under a move, decided by its own position. *)
Definition moveCubie (m : MoveType) (c : CubieData) : CubieData :=
  let '(a, l, d) := parseMove m in
  if inLayer a l c then rotated a d c else c.

(** Two cubies that agree on everything but, possibly, their Euler angles. *)
Definition samePlace (c c' : CubieData) : Prop :=
  id c' = id c /\ position c' = position c
  /\ initialPosition c' = initialPosition c.

(** Where a move sends a position. *)
Definition movePos (m : MoveType) (p : Vector3) : Vector3 :=
  let '(a, l, d) := parseMove m in
  if num_eq (Math_round (component a p)) l then turn a d p else p.

(** The check that four quarter turns, and a quarter turn followed by the
    opposite one, leave a lattice point where it was. *)
Definition axes : list Axis := [ax_x; ax_y; ax_z].

Definition turn_cycle_check : bool :=
  forallb (fun p =>
    forallb (fun a =>
      forallb (fun d =>
        V_same (turn a d (turn a d (turn a d (turn a d p)))) p
        && V_same (turn a (- d) (turn a d p)) p) [1; -1]) axes) grid.

Fixpoint nodupV (l : list Vector3) : bool :=
  match l with
  | [] => true
  | v :: l' => negb (memV v l') && nodupV l'
  end.

Definition inclV (l l' : list Vector3) : bool := forallb (fun v => memV v l') l.

(** The angular step the frame callback takes in state [s]. *)
Definition tickSpeed (s : State) : Q :=
  if (5 <? List.length (animationQueue s))%nat
  then ANIMATION_SPEED * 4 else ANIMATION_SPEED.

(** State [s] once its current move is committed onto the cubies [cs]: the
    move is cleared, the scheduler is idle, the queue is as it was. *)
Definition committed (s : State) (cs : list CubieData) : State :=
  mkState cs (selectedCubieId s) (clickedFaceNormal s) false
          (animationQueue s) None (availableFaces s).

(** State [s] with the progress of its current move set to [p]. *)
Definition withProgress (s : State) (cm : CurrentMove) (p : Q) : State :=
  mkState (cubies s) (selectedCubieId s) (clickedFaceNormal s) (isAnimating s)
          (animationQueue s)
          (Some (mkMove (type cm) (axis cm) (layer cm) (direction cm) p
                        (activeCubieIds cm)))
          (availableFaces s).

(** The invariant of the cube: distinct ids, well-formed cubies, and the
    positions a permutation of the lattice. *)
Definition cubeInv (cs : list CubieData) : Prop :=
  NoDup (map id cs) /\ Forall wf cs /\ Permutation (map position cs) grid.

(** The cubes reachable from the solved one by committed moves. *)
Inductive reachable : list CubieData -> Prop :=
  | reach_solved : reachable generateSolvedCube
  | reach_move : forall m cs cs',
      reachable cs -> applyMove m cs = Some cs' -> reachable cs'.

(** What can happen to the component between two renders. *)
Inductive Event : Type :=
  | Tick
  | Rotate (m : MoveType)
  | Scramble (random : nat -> float)
  | Reset
  | Click (normal : option Vector3) (cubie : CubieData).

Definition handle (e : Event) (s : State) : option State :=
  match e with
  | Tick => useFrame s
  | Rotate m => Some (triggerRotate m s)
  | Scramble random => Some (scrambleCube random s)
  | Reset => Some (resetCube s)
  | Click normal cubie => Some (handleCubieClick normal cubie s)
  end.

Fixpoint run (es : list Event) (s : State) : option State :=
  match es with
  | [] => Some s
  | e :: es' => s' <- handle e s ;; run es' s'
  end.

(** The invariant of the scheduler: the cube is reachable by committed
    moves, and a move in flight carries the parse of its code and the layer
    snapshot of the present cube. *)
Definition schedInv (s : State) : Prop :=
  reachable (cubies s)
  /\ match currentMove s with
     | Some cm =>
         isAnimating s = true
         /\ parseMove (type cm) = (axis cm, layer cm, direction cm)
         /\ activeCubieIds cm = getCubiesInLayer (axis cm) (layer cm) (cubies s)
     | None => isAnimating s = false
     end.

(** A centre piece has exactly one non-zero coordinate; [faceLetter] is the
    letter of the face it sits on. *)
Definition nonZero (q : Q) : nat := if num_eq q 0 then O else 1%nat.

Definition isCentre (p : Vector3) : bool :=
  let '(x, y, z) := p in
  Nat.eqb (nonZero x + nonZero y + nonZero z) 1.

Definition faceLetter (p : Vector3) : string :=
  let '(x, y, z) := p in
  (if num_eq x 1 then "R" else if num_eq x (-1) then "L"
   else if num_eq y 1 then "U" else if num_eq y (-1) then "D"
   else if num_eq z 1 then "F" else "B")%string.

(** The six signed unit vectors along the principal axes. *)
Definition principalAxes : list Vector3 :=
  [(1, 0, 0); (-1, 0, 0); (0, 1, 0); (0, -1, 0); (0, 0, 1); (0, 0, -1)].

(** The position of the centre piece of a move's face, the axis of the move
    and the side of the face. *)
Definition faceCentre (m : MoveType) : Vector3 :=
  match m with
  | R | R' => (1, 0, 0) | L | L' => (-1, 0, 0)
  | U | U' => (0, 1, 0) | D | D' => (0, -1, 0)
  | F | F' => (0, 0, 1) | B | B' => (0, 0, -1)
  end.

Definition moveAxis (m : MoveType) : Axis := fst (fst (parseMove m)).
Definition moveLayer (m : MoveType) : Q := snd (fst (parseMove m)).

(* ------------------------------------------------------------------ *)
(** ** Orientations as matrices *)

(** The matrix of the quarter turn of direction [d] about an axis, in
    integers: the one [turn] applies to positions. *)
Definition MatrixZ : Type := ((Z * Z * Z) * (Z * Z * Z) * (Z * Z * Z))%type.

Definition quarterTurnMatrix (a : Axis) (d : Z) : MatrixZ :=
  match a with
  | ax_x => ((1, 0, 0), (0, 0, - d), (0, d, 0))
  | ax_y => ((0, 0, d), (0, 1, 0), (- d, 0, 0))
  | ax_z => ((0, - d, 0), (d, 0, 0), (0, 0, 1))
  end%Z.

Definition identityMatrix : MatrixZ := ((1, 0, 0), (0, 1, 0), (0, 0, 1))%Z.

Definition matmulZ (m n : MatrixZ) : MatrixZ :=
  let '((a11, a12, a13), (a21, a22, a23), (a31, a32, a33)) := m in
  let '((b11, b12, b13), (b21, b22, b23), (b31, b32, b33)) := n in
  ((a11 * b11 + a12 * b21 + a13 * b31,
    a11 * b12 + a12 * b22 + a13 * b32,
    a11 * b13 + a12 * b23 + a13 * b33),
   (a21 * b11 + a22 * b21 + a23 * b31,
    a21 * b12 + a22 * b22 + a23 * b32,
    a21 * b13 + a22 * b23 + a23 * b33),
   (a31 * b11 + a32 * b21 + a33 * b31,
    a31 * b12 + a32 * b22 + a33 * b32,
    a31 * b13 + a32 * b23 + a33 * b33))%Z.

(** An integer matrix applied to a position, and as a matrix of doubles. *)
Definition applyMatrix (m : MatrixZ) (p : Vector3) : Vector3 :=
  let '(r1, r2, r3) := m in
  let row (r : Z * Z * Z) : Q :=
    let '(r1, r2, r3) := r in
    Qred (dot (inject_Z r1, inject_Z r2, inject_Z r3) p) in
  (row r1, row r2, row r3).

Definition matrix_d (m : MatrixZ) : Matrix3 :=
  let '(r1, r2, r3) := m in
  let row (r : Z * Z * Z) : Vector3d :=
    let '(r1, r2, r3) := r in
    (double_of_Z r1, double_of_Z r2, double_of_Z r3) in
  (row r1, row r2, row r3).

(** The unit quaternion of the quarter turn of direction [d] about an
    axis, [cos (pi/4) + sin (d pi/4) axis], with the doubles nearest to
    sqrt(2)/2 computed at [Math.PI / 4]. *)
Definition quarterTurnQuat (a : Axis) (d : Z) : Quaternion :=
  let s := (if (d =? 1)%Z then 0x1.6a09e667f3bccp-1
            else -0x1.6a09e667f3bccp-1)%float in
  let '(ax, ay, az) := axisVec_d a in
  quat (ax * s) (ay * s) (az * s) 0x1.6a09e667f3bcdp-1.

(** Two doubles, two triples and two matrices that differ by at most
    [eps] entry by entry; [closeM] is for 2^-48, a few units in the last
    place of 1. *)
Definition close_d (eps x y : float) : bool := (abs (x - y) <=? eps)%float.

Definition closeV (eps : float) (u v : Vector3d) : bool :=
  let '(u0, u1, u2) := u in let '(v0, v1, v2) := v in
  close_d eps u0 v0 && close_d eps u1 v1 && close_d eps u2 v2.

Definition closeM_within (eps : float) (m n : Matrix3) : bool :=
  let '(m1, m2, m3) := m in let '(n1, n2, n3) := n in
  closeV eps m1 n1 && closeV eps m2 n2 && closeV eps m3 n3.

Definition closeM (m n : Matrix3) : bool := closeM_within 0x1p-48 m n.

(** The rotation matrix an Euler triple stands for. *)
Definition eulerMatrix (e : Vector3d) : Matrix3 :=
  makeRotationFromQuaternion (setFromEuler e).

(* ------------------------------------------------------------------ *)
(** ** The scheduler at large *)

(** Whether two moves turn about the same axis. *)
Definition sameAxis (m1 m2 : MoveType) : bool :=
  match moveAxis m1, moveAxis m2 with
  | ax_x, ax_x | ax_y, ax_y | ax_z, ax_z => true
  | _, _ => false
  end.

(** The signed quarter turn of a move. *)
Definition moveDirection (m : MoveType) : Q := snd (parseMove m).

(** The rotation a cubie that starts at [p] with the rotation matrix [o]
    has after the moves [ms], in exact arithmetic: each move whose layer
    holds the cubie turns its position and multiplies its matrix on the
    left by the matrix of the quarter turn. *)
Fixpoint exactOrientation (ms : list MoveType) (p : Vector3) (o : MatrixZ)
  : MatrixZ :=
  match ms with
  | [] => o
  | m :: ms' =>
      if num_eq (component (moveAxis m) p) (moveLayer m)
      then exactOrientation ms' (movePos m p)
             (matmulZ (quarterTurnMatrix (moveAxis m) (Qnum (moveDirection m)))
                      o)
      else exactOrientation ms' p o
  end.

(** Whether, in the cube [cs] that the moves [ms] made of the solved one,
    the Euler angles of every cubie stand for that rotation, within [eps]
    entry by entry. *)
Definition orientationsFollow (eps : float) (cs : option (list CubieData))
  (ms : list MoveType) : bool :=
  match cs with
  | Some cs =>
      forallb (fun c =>
        closeM_within eps (eulerMatrix (rotation c))
          (matrix_d (exactOrientation ms (initialPosition c) identityMatrix)))
        cs
  | None => false
  end.

(** The ticks the scheduler takes to work off a queue from idle: eleven for
    a move, three while more than five moves wait behind it. *)
Fixpoint ticksFor (queue : list MoveType) : nat :=
  match queue with
  | [] => O
  | _ :: rest =>
      ((if (5 <? List.length rest)%nat then 3 else 11) + ticksFor rest)%nat
  end.

(** What holds of a move in flight: its progress lies strictly between 0
    and the quarter turn, and its active set has the nine ids of a layer. *)
Definition flightInv (s : State) : Prop :=
  match currentMove s with
  | Some cm =>
      isAnimating s = true
      /\ 0 < progress cm /\ progress cm < TOTAL_ROTATION
      /\ List.length (activeCubieIds cm) = 9%nat
  | None => isAnimating s = false
  end.

(** The part of the state the frame callback works on. *)
Definition scheduler (s : State)
  : list CubieData * bool * list MoveType * option CurrentMove :=
  (cubies s, isAnimating s, animationQueue s, currentMove s).

Definition isClick (e : Event) : bool :=
  match e with Click _ _ => true | _ => false end.

(* ------------------------------------------------------------------ *)
(** ** The moves that slide a piece within a face *)




(** How many coordinates of a vector are not zero. *)
Definition nonZeroCount (v : Vector3) : nat :=
  let '(x, y, z) := v in (nonZero x + nonZero y + nonZero z)%nat.

(** The twelve codes in the order the older [ArrowIndicators] goes
    through them. *)
Definition legacyCodes : list MoveType :=
  [R; R'; L'; L; U; U'; D'; D; F; F'; B'; B].

(* ------------------------------------------------------------------ *)
(** ** Sample states and cubies, for the examples *)

(** R is in flight with ten steps taken, U is queued. *)
Definition flight_R : CurrentMove :=
  mkMove R ax_x 1 (-1) (150 # 100) (getCubiesInLayer ax_x 1 generateSolvedCube).

Definition state_R_in_flight : State :=
  mkState generateSolvedCube None None true [U] (Some flight_R) [].

(** R then U queued on the initial state. *)
Definition queued_R_U : State := triggerRotate U (triggerRotate R initialState).

(** Three cubies of the solved cube: a corner, an edge and a centre. *)
Definition corner_111 : CubieData := mkCubie 26 (1, 1, 1) (0, 0, 0)%float (1, 1, 1).
Definition edge_110 : CubieData := mkCubie 25 (1, 1, 0) (0, 0, 0)%float (1, 1, 0).
Definition centre_100 : CubieData := mkCubie 22 (1, 0, 0) (0, 0, 0)%float (1, 0, 0).

(** The corner of id 26 as one R turn leaves it on the reference host. *)
Definition corner_after_R : CubieData :=
  mkCubie 26 (1, 1, -1) (-0x1.921fb54442d17p+0, 0, 0)%float (1, 1, 1).

(* ================================================================== *)
(** * What is assumed of the host

    At a signed quarter turn, [Math.cos] is within 1/4 of 0 and [Math.sin]
    within 1/4 of the sign.  (IEEE doubles give 6.1e-17 and exactly 1.) *)

Hypothesis host_quarter_turn :
  forall d : Z, d = 1%Z \/ d = (-1)%Z ->
    Qabs (Math_cos (inject_Z d * (Math_PI / 2))) < 1 # 4 /\
    Qabs (Math_sin (inject_Z d * (Math_PI / 2)) - inject_Z d) < 1 # 4.

(** For the cues of the edge and corner pieces: on an argument between 0
    and 8 (the squared displacement of a quarter turn on the lattice is 2
    or 4), [Math.sqrt] is below 10 in absolute value. *)
Hypothesis host_sqrt_bounded :
  forall q : Q, 0 <= q -> q <= 8 -> Qabs (Math_sqrt q) < 10.

(* ================================================================== *)
(** * Rounding and the quarter turn *)

Lemma Math_round_near (n : Z) (q : Q) :
  Qabs (q - inject_Z n) < 1 # 2 -> Math_round q = inject_Z n.
Proof.
  intros H. apply Qabs_Qlt_condition in H. destruct H as [Hlo Hhi].
  unfold Math_round. f_equal.
  assert (H1 : (n <= Qfloor (q + (1 # 2)))%Z).
  { rewrite <- (Qfloor_Z n). apply Qfloor_resp_le. lra. }
  assert (H2 : (Qfloor (q + (1 # 2)) < n + 1)%Z).
  { rewrite Zlt_Qlt. apply Qle_lt_trans with (q + (1 # 2)).
    - apply Qfloor_le.
    - rewrite inject_Z_plus. change (inject_Z 1) with 1. lra. }
  lia.
Qed.

(** [checked c as H]: the boolean check [c], unfolded, evaluates to [true]. *)
Tactic Notation "checked" constr(c) "as" ident(H) :=
  let t := eval unfold c in c in
  assert (H : t = true) by (vm_compute; reflexivity).

Ltac fold_Qred :=
  repeat match goal with
         | |- context [Qred ?q] =>
             let v := eval vm_compute in (Qred q) in change (Qred q) with v
         end.

Ltac round_component :=
  match goal with
  | |- Math_round _ = (?n # 1) =>
      first [ reflexivity
            | apply (Math_round_near n); unfold inject_Z;
              apply Qabs_Qlt_condition; split; lra ]
  end.

(** On the lattice, rounding the host's quarter turn gives the exact one. *)
Lemma rotate_exact (a : Axis) (d : Z) (p : Vector3) :
  In p grid -> d = 1%Z \/ d = (-1)%Z ->
  roundVector (rotateAxis a p (inject_Z d * (Math_PI / 2)))
  = turn a (inject_Z d) p.
Proof.
  intros Hp Hd. destruct (host_quarter_turn d Hd) as [Hc Hs].
  apply Qabs_Qlt_condition in Hc. apply Qabs_Qlt_condition in Hs.
  cbv beta zeta delta [rotateAxis rotateX rotateY rotateZ].
  revert Hc Hs.
  generalize (Math_cos (inject_Z d * (Math_PI / 2))).
  generalize (Math_sin (inject_Z d * (Math_PI / 2))).
  intros s c Hc Hs.
  cbv [grid loop3 flat_map map app] in Hp.
  destruct Hd as [-> | ->]; unfold inject_Z in Hs |- *;
    repeat (destruct Hp as [<- | Hp]); try contradiction;
    destruct a;
    cbv [roundVector rotateAxis rotateX rotateY rotateZ round turn];
    fold_Qred; repeat f_equal; round_component.
Qed.

(* ================================================================== *)
(** * Finite checks and their reflection *)

Lemma Q_same_eq (a b : Q) : Q_same a b = true -> a = b.
Proof.
  destruct a as [an ad], b as [bn bd]. unfold Q_same. simpl.
  intros H. apply andb_prop in H. destruct H as [Hn Hd].
  apply Z.eqb_eq in Hn. apply Pos.eqb_eq in Hd. congruence.
Qed.

Lemma V_same_eq (u v : Vector3) : V_same u v = true -> u = v.
Proof.
  destruct u as [[u0 u1] u2], v as [[v0 v1] v2]. unfold V_same.
  intros H. apply andb_prop in H. destruct H as [H H2].
  apply andb_prop in H. destruct H as [H0 H1].
  apply Q_same_eq in H0. apply Q_same_eq in H1. apply Q_same_eq in H2.
  congruence.
Qed.

Lemma memV_In (v : Vector3) (l : list Vector3) : memV v l = true -> In v l.
Proof.
  unfold memV. intros H. apply existsb_exists in H.
  destruct H as [u [Hu Hs]]. apply V_same_eq in Hs. now subst.
Qed.

Lemma parseMove_cases (m : MoveType) :
  exists (a : Axis) (l d : Z),
    parseMove m = (a, inject_Z l, inject_Z d)
    /\ (d = 1%Z \/ d = (-1)%Z) /\ (l = 1%Z \/ l = (-1)%Z).
Proof.
  destruct m;
    [ exists ax_y, 1%Z, (-1)%Z | exists ax_y, 1%Z, 1%Z
    | exists ax_y, (-1)%Z, 1%Z | exists ax_y, (-1)%Z, (-1)%Z
    | exists ax_x, (-1)%Z, 1%Z | exists ax_x, (-1)%Z, (-1)%Z
    | exists ax_x, 1%Z, (-1)%Z | exists ax_x, 1%Z, 1%Z
    | exists ax_z, 1%Z, (-1)%Z | exists ax_z, 1%Z, 1%Z
    | exists ax_z, (-1)%Z, 1%Z | exists ax_z, (-1)%Z, (-1)%Z ];
    (split; [reflexivity | split; auto]).
Qed.

(** The angle of a move is a double: plus or minus [Math.PI / 2]. *)
Lemma toDouble_quarter (d : Z) :
  d = 1%Z \/ d = (-1)%Z ->
  toDouble (inject_Z d * (Math_PI / 2))
  = Some (if (d =? 1)%Z then 0x1.921fb54442d18p+0 else -0x1.921fb54442d18p+0)%float.
Proof. intros [-> | ->]; vm_compute; reflexivity. Qed.

(** The quarter turn keeps a lattice point on the lattice. *)
Lemma turn_grid (a : Axis) (d : Z) (p : Vector3) :
  In p grid -> d = 1%Z \/ d = (-1)%Z -> In (turn a (inject_Z d) p) grid.
Proof.
  intros Hp Hd. apply memV_In.
  cbv [grid loop3 flat_map map app] in Hp.
  destruct Hd as [-> | ->];
    repeat (destruct Hp as [<- | Hp]); try contradiction;
    destruct a; vm_compute; reflexivity.
Qed.

(* ================================================================== *)
(** * One committed move, cubie by cubie *)

Lemma NoDup_map_injective {A B : Type} (f : A -> B) (l : list A) (x y : A) :
  NoDup (map f l) -> In x l -> In y l -> f x = f y -> x = y.
Proof.
  induction l as [| z l IH]; simpl; intros Hnd Hx Hy Hxy; [contradiction |].
  inversion Hnd as [| ? ? Hnotin Hnd']; subst.
  destruct Hx as [-> | Hx], Hy as [-> | Hy]; auto.
  - exfalso. apply Hnotin. rewrite Hxy. now apply in_map.
  - exfalso. apply Hnotin. rewrite <- Hxy. now apply in_map.
Qed.

(** With distinct ids, a cubie's id is in the layer snapshot exactly when
    the cubie itself is in the layer. *)
Lemma includes_layer (a : Axis) (l : Q) (cs : list CubieData) (c : CubieData) :
  NoDup (map id cs) -> In c cs ->
  includes (getCubiesInLayer a l cs) (id c) = inLayer a l c.
Proof.
  intros Hnd Hc. unfold includes, getCubiesInLayer.
  fold (inLayer a l).
  destruct (inLayer a l c) eqn:Hin.
  - apply existsb_exists. exists (id c). split; [| apply Nat.eqb_refl].
    apply in_map. apply filter_In. split; assumption.
  - apply not_true_is_false. intros H. apply existsb_exists in H.
    destruct H as [i [Hi Heq]]. apply Nat.eqb_eq in Heq. subst i.
    apply in_map_iff in Hi. destruct Hi as [c' [Hid Hc']].
    apply filter_In in Hc'. destruct Hc' as [Hc' Hl].
    assert (c' = c) by (eapply NoDup_map_injective; eauto).
    subst c'. congruence.
Qed.

Lemma map_option_map {A B : Type} (f : A -> option B) (g : A -> B)
  (l : list A) :
  (forall x, In x l -> f x = Some (g x)) -> map_option f l = Some (map g l).
Proof.
  induction l as [| x l IH]; simpl; intros H; [reflexivity |].
  rewrite (H x) by auto. simpl. rewrite IH by auto. reflexivity.
Qed.

Lemma commitCubie_moveCubie (m : MoveType) (cs : list CubieData)
  (c : CubieData) (a : Axis) (l d : Q) :
  parseMove m = (a, l, d) ->
  NoDup (map id cs) -> In c cs -> wf c ->
  commitCubie a (d * (Math_PI / 2)) (getCubiesInLayer a l cs) c
  = Some (moveCubie m c).
Proof.
  intros Hm Hnd Hc Hp. unfold wf in Hp.
  destruct (parseMove_cases m) as [a' [l' [d' [Hm' [Hd Hl]]]]].
  rewrite Hm in Hm'. injection Hm' as -> -> ->.
  unfold commitCubie, moveCubie, rotated, quarterEuler, turnEuler. rewrite Hm.
  rewrite includes_layer by assumption.
  destruct (inLayer a' (inject_Z l') c); cbn [negb]; [| reflexivity].
  rewrite rotate_exact by assumption.
  rewrite (toDouble_quarter d' Hd). reflexivity.
Qed.

(** A committed move maps [moveCubie] over the cube. *)
Lemma applyMove_map (m : MoveType) (cs : list CubieData) :
  NoDup (map id cs) -> Forall wf cs ->
  applyMove m cs = Some (map (moveCubie m) cs).
Proof.
  intros Hnd Hwf. unfold applyMove.
  destruct (parseMove m) as [[a l] d] eqn:Hm.
  unfold commitMove. apply map_option_map.
  intros c Hc. eapply commitCubie_moveCubie; eauto.
  rewrite Forall_forall in Hwf. auto.
Qed.

Lemma Q_same_refl (a : Q) : Q_same a a = true.
Proof. unfold Q_same. now rewrite Z.eqb_refl, Pos.eqb_refl. Qed.

Lemma V_same_refl (v : Vector3) : V_same v v = true.
Proof. destruct v as [[x y] z]. unfold V_same. now rewrite !Q_same_refl. Qed.

Lemma In_memV (v : Vector3) (l : list Vector3) : In v l -> memV v l = true.
Proof.
  intros H. unfold memV. apply existsb_exists. exists v.
  split; [assumption | apply V_same_refl].
Qed.

Lemma nodupV_NoDup (l : list Vector3) : nodupV l = true -> NoDup l.
Proof.
  induction l as [| v l IH]; simpl; intros H; constructor.
  - apply andb_prop in H. destruct H as [H _].
    intros Hin. apply In_memV in Hin. rewrite Hin in H. discriminate.
  - apply IH. apply andb_prop in H. tauto.
Qed.

Lemma inclV_incl (l l' : list Vector3) : inclV l l' = true -> incl l l'.
Proof.
  unfold inclV. rewrite forallb_forall. intros H v Hv.
  apply memV_In. auto.
Qed.

(** A move permutes the lattice. *)
Lemma movePos_permutation (m : MoveType) :
  Permutation (map (movePos m) grid) grid.
Proof.
  apply NoDup_Permutation_bis.
  - apply nodupV_NoDup. destruct m; vm_compute; reflexivity.
  - rewrite length_map. apply le_n.
  - apply inclV_incl. destruct m; vm_compute; reflexivity.
Qed.

Lemma moveCubie_id (m : MoveType) (c : CubieData) : id (moveCubie m c) = id c.
Proof.
  unfold moveCubie. destruct (parseMove m) as [[a l] d].
  destruct (inLayer a l c); reflexivity.
Qed.

Lemma moveCubie_position (m : MoveType) (c : CubieData) :
  position (moveCubie m c) = movePos m (position c).
Proof.
  unfold movePos, moveCubie, inLayer.
  destruct (parseMove m) as [[a l] d].
  destruct (num_eq (Math_round (component a (position c))) l); reflexivity.
Qed.

Lemma moveCubie_initialPosition (m : MoveType) (c : CubieData) :
  initialPosition (moveCubie m c) = initialPosition c.
Proof.
  unfold moveCubie. destruct (parseMove m) as [[a l] d].
  destruct (inLayer a l c); reflexivity.
Qed.

Lemma rotated_wf (a : Axis) (d : Z) (c : CubieData) :
  wf c -> d = 1%Z \/ d = (-1)%Z -> wf (rotated a (inject_Z d) c).
Proof.
  intros Hp Hd. unfold wf in *. cbn [rotated position].
  now apply turn_grid.
Qed.

(** A quarter turn about an axis keeps the coordinate on that axis, so the
    turned cubie is in the layer it was in. *)
Lemma rotated_inLayer (a : Axis) (l d : Q) (c : CubieData) :
  inLayer a l (rotated a d c) = inLayer a l c.
Proof.
  unfold inLayer, rotated. cbn [position].
  destruct (position c) as [[x y] z]. destruct a; reflexivity.
Qed.

(** A move keeps a well-formed cubie well formed. *)
Lemma moveCubie_wf (m : MoveType) (c : CubieData) : wf c -> wf (moveCubie m c).
Proof.
  intros Hwf. unfold moveCubie.
  destruct (parseMove_cases m) as [a [l [d [-> [Hd _]]]]].
  destruct (inLayer a (inject_Z l) c); [now apply rotated_wf | assumption].
Qed.

(* ================================================================== *)
(** * The invariant of the cube *)

Lemma grid_spec (x y z : Q) :
  In (x, y, z) grid <-> In x loop3 /\ In y loop3 /\ In z loop3.
Proof.
  unfold grid. rewrite in_flat_map. split.
  - intros [x' [Hx H]]. rewrite in_flat_map in H. destruct H as [y' [Hy H]].
    rewrite in_map_iff in H. destruct H as [z' [E Hz]].
    injection E as -> -> ->. auto.
  - intros [Hx [Hy Hz]]. exists x. split; [assumption |].
    rewrite in_flat_map. exists y. split; [assumption |].
    rewrite in_map_iff. exists z. auto.
Qed.

Lemma solved_cubeInv : cubeInv generateSolvedCube.
Proof.
  unfold cubeInv. split; [| split].
  - vm_compute. repeat (constructor; [simpl; intuition discriminate |]).
    constructor.
  - rewrite Forall_forall. intros c Hc. vm_compute in Hc.
    repeat (destruct Hc as [<- | Hc]; [apply memV_In; vm_compute; reflexivity |]).
    contradiction.
  - apply Permutation_refl'. vm_compute. reflexivity.
Qed.

Lemma moveCubie_cubeInv (m : MoveType) (cs : list CubieData) :
  cubeInv cs -> cubeInv (map (moveCubie m) cs).
Proof.
  intros [Hnd [Hwf Hperm]]. split; [| split].
  - rewrite map_map. erewrite map_ext; [eassumption |].
    intros c. apply moveCubie_id.
  - rewrite Forall_forall in *. intros c' Hc'.
    apply in_map_iff in Hc'. destruct Hc' as [c [<- Hc]].
    apply moveCubie_wf. auto.
  - rewrite map_map.
    rewrite (map_ext _ (fun c => movePos m (position c)))
      by (intros c; apply moveCubie_position).
    rewrite <- (map_map position (movePos m)).
    eapply Permutation_trans; [| apply (movePos_permutation m)].
    now apply Permutation_map.
Qed.

Lemma applyMove_cubeInv (m : MoveType) (cs cs' : list CubieData) :
  cubeInv cs -> applyMove m cs = Some cs' -> cubeInv cs'.
Proof.
  intros Hinv H. pose proof Hinv as [Hnd [Hwf _]].
  rewrite applyMove_map in H by assumption. injection H as <-.
  now apply moveCubie_cubeInv.
Qed.

Lemma reachable_cubeInv (cs : list CubieData) : reachable cs -> cubeInv cs.
Proof.
  induction 1 as [| m cs cs' _ IH H].
  - apply solved_cubeInv.
  - eapply applyMove_cubeInv; eauto.
Qed.

(** A committed move never fails on a cube that satisfies the invariant. *)
Lemma applyMove_total (m : MoveType) (cs : list CubieData) :
  cubeInv cs -> exists cs', applyMove m cs = Some cs' /\ cubeInv cs'.
Proof.
  intros Hinv. pose proof Hinv as [Hnd [Hwf _]].
  exists (map (moveCubie m) cs). split.
  - now apply applyMove_map.
  - now apply moveCubie_cubeInv.
Qed.

Lemma applyMoves_total (ms : list MoveType) (cs : list CubieData) :
  cubeInv cs -> exists cs', applyMoves ms cs = Some cs' /\ cubeInv cs'.
Proof.
  revert cs. induction ms as [| m ms IH]; intros cs Hinv; simpl.
  - exists cs. auto.
  - destruct (applyMove_total m cs Hinv) as [cs1 [H1 Hinv1]].
    rewrite H1. simpl. apply IH. assumption.
Qed.

Lemma applyMoves_reachable (ms : list MoveType) (cs cs' : list CubieData) :
  reachable cs -> applyMoves ms cs = Some cs' -> reachable cs'.
Proof.
  revert cs. induction ms as [| m ms IH]; intros cs Hr H; simpl in H.
  - injection H as <-. assumption.
  - destruct (applyMove m cs) as [cs1 |] eqn:H1; simpl in H; [| discriminate].
    eapply IH; [| eassumption]. eapply reach_move; eauto.
Qed.

(** C1.  After any sequence of committed moves from the solved cube, the
    commits all succeed, there are still 27 cubies, and their logical
    positions are a permutation of the 27 triples of {-1,0,1}^3: no position
    occurs twice and every component is exactly -1, 0 or 1. *)
Theorem positions_permute_lattice (ms : list MoveType) :
  exists cs,
    applyMoves ms generateSolvedCube = Some cs
    /\ List.length cs = 27%nat
    /\ Permutation (map position cs) grid
    /\ NoDup (map position cs)
    /\ (forall c x y z, In c cs -> position c = (x, y, z) ->
          In x [-1; 0; 1] /\ In y [-1; 0; 1] /\ In z [-1; 0; 1]).
Proof.
  destruct (applyMoves_total ms generateSolvedCube solved_cubeInv)
    as [cs [H [Hnd [Hwf Hperm]]]].
  exists cs. split; [assumption |]. split; [| split; [assumption | split]].
  - apply Permutation_length in Hperm. rewrite length_map in Hperm.
    rewrite Hperm. reflexivity.
  - eapply Permutation_NoDup; [apply Permutation_sym; eassumption |].
    apply nodupV_NoDup. vm_compute. reflexivity.
  - intros c x y z Hc Hpos. rewrite Forall_forall in Hwf.
    pose proof (Hwf c Hc) as Hg. unfold wf in Hg. rewrite Hpos in Hg.
    now apply grid_spec in Hg.
Qed.

(* ================================================================== *)
(** * Four quarter turns, and a move followed by its counterpart *)

Lemma In_axes (a : Axis) : In a axes.
Proof. destruct a; simpl; auto. Qed.

Lemma In_directions (d : Z) :
  d = 1%Z \/ d = (-1)%Z -> In (inject_Z d) [1; -1].
Proof. intros [-> | ->]; simpl; auto. Qed.

Lemma turn_cycle (a : Axis) (d : Z) (p : Vector3) :
  In p grid -> d = 1%Z \/ d = (-1)%Z ->
  turn a (inject_Z d) (turn a (inject_Z d) (turn a (inject_Z d)
    (turn a (inject_Z d) p))) = p
  /\ turn a (- inject_Z d) (turn a (inject_Z d) p) = p.
Proof.
  intros Hp Hd.
  checked turn_cycle_check as Hall.
  rewrite forallb_forall in Hall. specialize (Hall p Hp).
  rewrite forallb_forall in Hall. specialize (Hall a (In_axes a)).
  rewrite forallb_forall in Hall. specialize (Hall _ (In_directions d Hd)).
  apply andb_prop in Hall. destruct Hall as [H4 Hb].
  split; apply V_same_eq; assumption.
Qed.


Lemma rotated_back (a : Axis) (d : Z) (c : CubieData) :
  wf c -> d = 1%Z \/ d = (-1)%Z ->
  samePlace c (rotated a (- inject_Z d) (rotated a (inject_Z d) c)).
Proof.
  intros Hp Hd. unfold wf in Hp. destruct c as [i p e ip].
  cbn [position] in Hp. unfold samePlace, rotated.
  cbn [id position rotation initialPosition].
  destruct (turn_cycle a d p Hp Hd) as [_ ->]. auto.
Qed.

Lemma samePlace_refl (c : CubieData) : samePlace c c.
Proof. unfold samePlace. auto. Qed.

Lemma samePlace_sym (c c' : CubieData) : samePlace c c' -> samePlace c' c.
Proof. unfold samePlace. intros [H1 [H2 H3]]. auto. Qed.

Lemma samePlace_trans (c1 c2 c3 : CubieData) :
  samePlace c1 c2 -> samePlace c2 c3 -> samePlace c1 c3.
Proof.
  unfold samePlace. intros [H1 [H2 H3]] [H4 [H5 H6]].
  repeat split; congruence.
Qed.

(** The counterpart of a move turns the same layer the other way. *)
Lemma parseMove_counterpart (m : MoveType) :
  exists (a : Axis) (l d : Z),
    parseMove m = (a, inject_Z l, inject_Z d)
    /\ parseMove (counterpart m) = (a, inject_Z l, - inject_Z d)
    /\ (d = 1%Z \/ d = (-1)%Z).
Proof.
  destruct m;
    [ exists ax_y, 1%Z, (-1)%Z | exists ax_y, 1%Z, 1%Z
    | exists ax_y, (-1)%Z, 1%Z | exists ax_y, (-1)%Z, (-1)%Z
    | exists ax_x, (-1)%Z, 1%Z | exists ax_x, (-1)%Z, (-1)%Z
    | exists ax_x, 1%Z, (-1)%Z | exists ax_x, 1%Z, 1%Z
    | exists ax_z, 1%Z, (-1)%Z | exists ax_z, 1%Z, 1%Z
    | exists ax_z, (-1)%Z, 1%Z | exists ax_z, (-1)%Z, (-1)%Z ];
    (split; [reflexivity | split; [reflexivity | auto]]).
Qed.

Lemma moveCubie_in (m : MoveType) (a : Axis) (l d : Q) (c : CubieData) :
  parseMove m = (a, l, d) -> inLayer a l c = true ->
  moveCubie m c = rotated a d c.
Proof. intros Hm Hin. unfold moveCubie. now rewrite Hm, Hin. Qed.

Lemma moveCubie_out (m : MoveType) (a : Axis) (l d : Q) (c : CubieData) :
  parseMove m = (a, l, d) -> inLayer a l c = false -> moveCubie m c = c.
Proof. intros Hm Hin. unfold moveCubie. now rewrite Hm, Hin. Qed.


Lemma moveCubie_counterpart (m : MoveType) (c : CubieData) :
  wf c ->
  samePlace c (moveCubie (counterpart m) (moveCubie m c))
  /\ (inLayer (moveAxis m) (moveLayer m) c = false ->
      moveCubie (counterpart m) (moveCubie m c) = c).
Proof.
  intros Hwf.
  destruct (parseMove_counterpart m) as [a [l [d [Hm [Hm' Hd]]]]].
  unfold moveAxis, moveLayer. rewrite Hm. cbn [fst snd].
  destruct (inLayer a (inject_Z l) c) eqn:Hin.
  - split; [| discriminate].
    rewrite (moveCubie_in m _ _ _ c Hm Hin).
    rewrite (moveCubie_in (counterpart m) _ _ _
               (rotated a (inject_Z d) c) Hm')
      by (now rewrite rotated_inLayer).
    now apply rotated_back.
  - rewrite (moveCubie_out m _ _ _ c Hm Hin).
    rewrite (moveCubie_out (counterpart m) _ _ _ c Hm' Hin).
    split; [apply samePlace_refl | reflexivity].
Qed.

Lemma Forall2_map_self {A : Type} (R : A -> A -> Prop) (f : A -> A)
  (l : list A) :
  (forall x, In x l -> R x (f x)) -> Forall2 R l (map f l).
Proof.
  induction l as [| x l IH]; simpl; intros H; constructor; auto.
Qed.

(** The cube after a sequence of committed moves, as maps of [moveCubie]. *)
Lemma applyMoves_map (ms : list MoveType) (cs : list CubieData) :
  cubeInv cs ->
  applyMoves ms cs
  = Some (fold_left (fun cs' m => map (moveCubie m) cs') ms cs).
Proof.
  revert cs. induction ms as [| m ms IH]; intros cs Hinv; simpl;
    [reflexivity |].
  pose proof Hinv as [Hnd [Hwf _]].
  rewrite applyMove_map by assumption. cbn [obind].
  apply IH. now apply moveCubie_cubeInv.
Qed.



(* ================================================================== *)
(** * The scheduler *)

(** While a move is in flight, step 1 of the callback does nothing. *)
Lemma beginMove_animating (s : State) : isAnimating s = true -> beginMove s = s.
Proof. intros H. unfold beginMove. now rewrite H. Qed.

(** A tick that does not reach the target only advances the progress. *)
Lemma useFrame_advance (s : State) (cm : CurrentMove) :
  isAnimating s = true -> currentMove s = Some cm ->
  Qle_bool TOTAL_ROTATION (progress cm + tickSpeed s) = false ->
  useFrame s = Some (withProgress s cm (progress cm + tickSpeed s)).
Proof.
  intros Ha Hcm Hlt. unfold useFrame. rewrite beginMove_animating by assumption.
  unfold advanceMove, withProgress. rewrite Ha, Hcm. cbn [progress].
  fold (tickSpeed s). rewrite Hlt. reflexivity.
Qed.

(** The tick that reaches the target commits with the angle
    [direction * (Math.PI / 2)] and leaves the queue alone. *)
Lemma useFrame_commit (s : State) (cm : CurrentMove) :
  isAnimating s = true -> currentMove s = Some cm ->
  Qle_bool TOTAL_ROTATION (progress cm + tickSpeed s) = true ->
  useFrame s =
    (cubies' <- commitMove (axis cm) (direction cm * (Math_PI / 2))
                           (activeCubieIds cm) (cubies s) ;;
     Some (committed s cubies')).
Proof.
  intros Ha Hcm Hge. unfold useFrame. rewrite beginMove_animating by assumption.
  unfold advanceMove. rewrite Ha, Hcm. cbn [progress].
  fold (tickSpeed s). rewrite Hge. reflexivity.
Qed.

(** An idle scheduler with a queued move starts it and takes one step. *)
Lemma useFrame_begin (s : State) (m : MoveType) (rest : list MoveType) :
  isAnimating s = false -> animationQueue s = m :: rest ->
  useFrame s =
    Some (let '(a, l, d) := parseMove m in
          mkState (cubies s) (selectedCubieId s) (clickedFaceNormal s) true rest
                  (Some (mkMove m a l d
                           (0 + (if (5 <? List.length rest)%nat
                                 then ANIMATION_SPEED * 4 else ANIMATION_SPEED))
                           (getCubiesInLayer a l (cubies s))))
                  (availableFaces s)).
Proof.
  intros Ha Hq. unfold useFrame, beginMove. rewrite Ha, Hq.
  change (0 <? List.length (m :: rest))%nat with true. cbn [negb andb].
  destruct (parseMove m) as [[a l] d].
  unfold advanceMove.
  cbn [cubies selectedCubieId clickedFaceNormal isAnimating animationQueue
       currentMove availableFaces type axis layer direction progress
       activeCubieIds].
  destruct (5 <? List.length rest)%nat.
  - change (Qle_bool TOTAL_ROTATION (0 + ANIMATION_SPEED * 4)) with false.
    reflexivity.
  - change (Qle_bool TOTAL_ROTATION (0 + ANIMATION_SPEED)) with false.
    reflexivity.
Qed.

(** An idle scheduler with an empty queue stays as it is. *)
Lemma useFrame_idle (s : State) :
  isAnimating s = false -> animationQueue s = [] -> useFrame s = Some s.
Proof.
  intros Ha Hq. unfold useFrame, beginMove. rewrite Ha, Hq. cbn.
  unfold advanceMove. now rewrite Ha.
Qed.

(** C4.  Whatever the scheduler state (in flight or not, queue empty or
    not), [resetCube] yields the freshly generated solved cube, an empty
    queue and no move in flight: the state is the initial one altogether,
    nothing of the interrupted move is left, and the next tick changes
    nothing. *)
Theorem reset_clears_everything (s : State) :
  cubies (resetCube s) = generateSolvedCube
  /\ animationQueue (resetCube s) = []
  /\ currentMove (resetCube s) = None
  /\ isAnimating (resetCube s) = false
  /\ resetCube s = initialState
  /\ useFrame (resetCube s) = Some (resetCube s).
Proof.
  repeat split.
Qed.

(* ------------------------------------------------------------------ *)
(** ** The invariant of the scheduler *)

Lemma initial_schedInv : schedInv initialState.
Proof. split; [apply reach_solved | reflexivity]. Qed.

Lemma triggerRotate_schedInv (m : MoveType) (s : State) :
  schedInv s -> schedInv (triggerRotate m s).
Proof. intros [Hr Hc]. split; assumption. Qed.

Lemma scrambleCube_schedInv (random : nat -> float) (s : State) :
  schedInv s -> schedInv (scrambleCube random s).
Proof.
  intros H. unfold scrambleCube.
  set (f := fun st i => triggerRotate _ st).
  assert (Hfold : forall l s0, schedInv s0 -> schedInv (fold_left f l s0)).
  { induction l as [| i l IH]; simpl; intros s0 H0; [assumption |].
    apply IH. unfold f. now apply triggerRotate_schedInv. }
  specialize (Hfold (seq 0 25) s H).
  generalize dependent (fold_left f (seq 0 25) s).
  intros s' [Hr Hc]. split; [exact Hr | exact Hc].
Qed.

Lemma handleCubieClick_schedInv (normal : option Vector3) (cubie : CubieData)
  (s : State) : schedInv s -> schedInv (handleCubieClick normal cubie s).
Proof.
  intros H. unfold handleCubieClick.
  destruct (isAnimating s) eqn:E; [exact H |].
  destruct H as [Hr Hc]. rewrite E in Hc. split; [exact Hr | exact Hc].
Qed.

(** In a state that satisfies the invariant the commit is [applyMove]. *)
Lemma commit_is_applyMove (s : State) (cm : CurrentMove) :
  schedInv s -> currentMove s = Some cm ->
  commitMove (axis cm) (direction cm * (Math_PI / 2)) (activeCubieIds cm)
             (cubies s)
  = applyMove (type cm) (cubies s).
Proof.
  intros [_ Hc] Hcm. rewrite Hcm in Hc. destruct Hc as [_ [Hp Hids]].
  unfold applyMove. rewrite Hp, Hids. reflexivity.
Qed.

Lemma useFrame_schedInv (s : State) :
  schedInv s -> exists s', useFrame s = Some s' /\ schedInv s'.
Proof.
  intros Hinv. pose proof Hinv as [Hr Hc].
  destruct (currentMove s) as [cm |] eqn:Hcm.
  - destruct Hc as [Ha [Hp Hids]].
    destruct (Qle_bool TOTAL_ROTATION (progress cm + tickSpeed s)) eqn:Hge.
    + rewrite (useFrame_commit s cm Ha Hcm Hge).
      rewrite (commit_is_applyMove s cm Hinv Hcm).
      destruct (applyMove_total (type cm) (cubies s) (reachable_cubeInv _ Hr))
        as [cs' [Happ _]].
      rewrite Happ. cbn [obind]. eexists. split; [reflexivity |].
      split; [| reflexivity]. cbn [committed cubies].
      eapply reach_move; eassumption.
    + rewrite (useFrame_advance s cm Ha Hcm Hge).
      eexists. split; [reflexivity |]. split; [assumption |].
      cbn [withProgress currentMove type axis layer direction activeCubieIds
           isAnimating cubies]. auto.
  - destruct (animationQueue s) as [| m rest] eqn:Hq.
    + rewrite (useFrame_idle s Hc Hq). exists s. split; [reflexivity | assumption].
    + rewrite (useFrame_begin s m rest Hc Hq).
      destruct (parseMove m) as [[a l] d] eqn:Hm.
      eexists. split; [reflexivity |]. split; [assumption |].
      cbn [currentMove isAnimating type axis layer direction activeCubieIds
           cubies]. auto.
Qed.

(** Every event keeps the invariant, and no event fails. *)
Lemma handle_schedInv (e : Event) (s : State) :
  schedInv s -> exists s', handle e s = Some s' /\ schedInv s'.
Proof.
  intros H. destruct e as [| m | random | | normal cubie]; simpl.
  - now apply useFrame_schedInv.
  - eexists. split; [reflexivity | now apply triggerRotate_schedInv].
  - eexists. split; [reflexivity | now apply scrambleCube_schedInv].
  - eexists. split; [reflexivity | apply initial_schedInv].
  - eexists. split; [reflexivity | now apply handleCubieClick_schedInv].
Qed.

Lemma run_schedInv (es : list Event) (s : State) :
  schedInv s -> exists s', run es s = Some s' /\ schedInv s'.
Proof.
  revert s. induction es as [| e es IH]; intros s H; simpl.
  - exists s. auto.
  - destruct (handle_schedInv e s H) as [s1 [H1 Hinv1]].
    rewrite H1. cbn [obind]. now apply IH.
Qed.

(** The cubes reachable by committed moves are the results of [applyMoves]
    on the solved cube. *)
Lemma applyMoves_app (ms ms' : list MoveType) (cs : list CubieData) :
  applyMoves (ms ++ ms') cs = (cs' <- applyMoves ms cs ;; applyMoves ms' cs').
Proof.
  revert cs. induction ms as [| m ms IH]; intros cs; simpl; [reflexivity |].
  destruct (applyMove m cs) as [cs1 |]; simpl; [apply IH | reflexivity].
Qed.

Lemma reachable_applyMoves (cs : list CubieData) :
  reachable cs -> exists ms, applyMoves ms generateSolvedCube = Some cs.
Proof.
  induction 1 as [| m cs cs' _ [ms IH] H].
  - exists []. reflexivity.
  - exists (ms ++ [m]). rewrite applyMoves_app, IH. simpl. now rewrite H.
Qed.

(** Whatever happens to the component -- ticks, queued moves, scrambles,
    resets, clicks -- no step fails and the cube keeps its invariant. *)
Corollary run_cubeInv (es : list Event) :
  exists s, run es initialState = Some s /\ schedInv s /\ cubeInv (cubies s).
Proof.
  destruct (run_schedInv es initialState initial_schedInv) as [s [H Hinv]].
  exists s. split; [assumption |]. split; [assumption |].
  destruct Hinv as [Hr _]. now apply reachable_cubeInv.
Qed.

(* ------------------------------------------------------------------ *)
(** ** A queued move, from the queue to the cube *)

Ltac state_fields :=
  unfold withProgress, tickSpeed;
  cbn [cubies selectedCubieId clickedFaceNormal isAnimating animationQueue
       currentMove availableFaces type axis layer direction progress
       activeCubieIds obind].

Ltac advance_tick E :=
  cbn [ticks];
  erewrite useFrame_advance;
    [ | reflexivity | reflexivity
      | state_fields; rewrite E; vm_compute; reflexivity ];
  state_fields; rewrite ?E.

Ltac finish_tick E Happ :=
  cbn [ticks];
  erewrite useFrame_commit;
    [ | reflexivity | reflexivity
      | state_fields; rewrite E; vm_compute; reflexivity ];
  state_fields; rewrite Happ; cbn [obind].

(** From an idle scheduler, the head of the queue is committed after
    eleven ticks (three when more than five moves wait behind it); the cube
    is then [applyMove] of that move, the scheduler is idle again and the
    rest of the queue waits. *)
Lemma ticks_one_move (s : State) (m : MoveType) (rest : list MoveType) :
  schedInv s -> isAnimating s = false -> animationQueue s = m :: rest ->
  exists cs',
    applyMove m (cubies s) = Some cs'
    /\ ticks (if (5 <? List.length rest)%nat then 3 else 11) s
       = Some (mkState cs' (selectedCubieId s) (clickedFaceNormal s) false
                       rest None (availableFaces s)).
Proof.
  intros [Hr _] Ha Hq.
  destruct (applyMove_total m (cubies s) (reachable_cubeInv _ Hr))
    as [cs' [Happ _]].
  exists cs'. split; [exact Happ |].
  unfold applyMove in Happ.
  destruct (parseMove m) as [[a l] d] eqn:Hm.
  destruct (5 <? List.length rest)%nat eqn:E.
  - cbn [ticks]. rewrite (useFrame_begin s m rest Ha Hq), Hm, E. cbn [obind].
    advance_tick E.
    finish_tick E Happ. reflexivity.
  - cbn [ticks]. rewrite (useFrame_begin s m rest Ha Hq), Hm, E. cbn [obind].
    do 9 advance_tick E.
    finish_tick E Happ. reflexivity.
Qed.

(** The direction a parsed move carries is a signed unit. *)
Lemma schedInv_direction (s : State) (cm : CurrentMove) :
  schedInv s -> currentMove s = Some cm ->
  direction cm = 1 \/ direction cm = -1.
Proof.
  intros [_ Hc] Hcm. rewrite Hcm in Hc. destruct Hc as [_ [Hp _]].
  destruct (parseMove_cases (type cm)) as [a [l [d [Hm [Hd _]]]]].
  rewrite Hp in Hm. injection Hm as _ _ ->.
  destruct Hd as [-> | ->]; [left | right]; reflexivity.
Qed.

(** C5, as the code has it.  On the tick that takes the progress of the
    move in flight to [Math.PI / 2] or beyond, the commit succeeds, it is
    made with the angle [direction * (Math.PI / 2)] for a direction that is
    1 or -1 (the progress does not enter it), the move in flight is cleared
    and the scheduler is idle.  The queue is not touched on that tick: a
    queued move begins on the following tick, which shifts it off the
    queue, makes it the move in flight with the axis, the layer and the
    direction its code parses to, snapshots its layer on the committed
    cube, leaves the cube as committed and takes the first progress step
    from 0. *)
Theorem commit_tick (s : State) (cm : CurrentMove) :
  schedInv s -> currentMove s = Some cm ->
  TOTAL_ROTATION <= progress cm + tickSpeed s ->
  exists cubies',
    (direction cm = 1 \/ direction cm = -1)
    /\ commitMove (axis cm) (direction cm * (Math_PI / 2)) (activeCubieIds cm)
                  (cubies s) = Some cubies'
    /\ useFrame s = Some (committed s cubies')
    /\ cubies (committed s cubies') = cubies'
    /\ currentMove (committed s cubies') = None
    /\ isAnimating (committed s cubies') = false
    /\ animationQueue (committed s cubies') = animationQueue s
    /\ (forall m rest, animationQueue s = m :: rest ->
        exists s'' cm',
          useFrame (committed s cubies') = Some s''
          /\ isAnimating s'' = true
          /\ animationQueue s'' = rest
          /\ cubies s'' = cubies'
          /\ currentMove s'' = Some cm'
          /\ type cm' = m
          /\ parseMove m = (axis cm', layer cm', direction cm')
          /\ progress cm'
             = 0 + (if (5 <? List.length rest)%nat
                    then ANIMATION_SPEED * 4 else ANIMATION_SPEED)
          /\ activeCubieIds cm'
             = getCubiesInLayer (axis cm') (layer cm') cubies').
Proof.
  intros Hinv Hcm Hge. apply Qle_bool_iff in Hge.
  pose proof Hinv as [Hr Hc]. rewrite Hcm in Hc. destruct Hc as [Ha _].
  destruct (applyMove_total (type cm) (cubies s) (reachable_cubeInv _ Hr))
    as [cs' [Happ _]].
  rewrite <- (commit_is_applyMove s cm Hinv Hcm) in Happ.
  exists cs'. split; [eapply schedInv_direction; eassumption |].
  split; [exact Happ |]. split.
  { rewrite (useFrame_commit s cm Ha Hcm Hge), Happ. reflexivity. }
  repeat (split; [reflexivity |]).
  intros m rest Hq.
  rewrite (useFrame_begin (committed s cs') m rest eq_refl Hq).
  destruct (parseMove m) as [[a l] d].
  eexists. eexists. repeat (split; [reflexivity |]). reflexivity.
Qed.

(* ================================================================== *)
(** * The selection resolver *)

(** C8.  With no move in flight, a click on the piece whose snapped
    position is (1,1,1) reports exactly the letters R, U and F; on the piece
    at (1,1,0) exactly R and U; on the piece at (1,0,0) exactly R. *)
Theorem click_reports_face_letters (normal : option Vector3)
  (cubie : CubieData) (s : State) :
  isAnimating s = false ->
  (roundVector (position cubie) = (1, 1, 1) ->
     forall f, In f (availableFaces (handleCubieClick normal cubie s))
               <-> In f ["R"; "U"; "F"]%string)
  /\ (roundVector (position cubie) = (1, 1, 0) ->
     forall f, In f (availableFaces (handleCubieClick normal cubie s))
               <-> In f ["R"; "U"]%string)
  /\ (roundVector (position cubie) = (1, 0, 0) ->
     forall f, In f (availableFaces (handleCubieClick normal cubie s))
               <-> In f ["R"]%string).
Proof.
  intros Ha. unfold handleCubieClick. rewrite Ha. cbn [availableFaces].
  unfold validFaces.
  split; [| split]; intros Hpos f; rewrite Hpos; cbn; tauto.
Qed.

(** C10.  With no move in flight, a click on a centre piece (a lattice
    position with exactly one non-zero coordinate) reports the list made of
    the letter of its face twice. *)
Theorem centre_click_reports_letter_twice (normal : option Vector3)
  (cubie : CubieData) (s : State) (p : Vector3) :
  isAnimating s = false ->
  In p grid -> isCentre p = true ->
  roundVector (position cubie) = p ->
  availableFaces (handleCubieClick normal cubie s)
  = [faceLetter p; faceLetter p].
Proof.
  intros Ha Hp Hc Hpos. unfold handleCubieClick. rewrite Ha.
  cbn [availableFaces]. unfold validFaces. rewrite Hpos. clear Hpos.
  cbv [grid loop3 flat_map map app] in Hp.
  repeat (destruct Hp as [<- | Hp]; [first [discriminate Hc | reflexivity] |]).
  contradiction.
Qed.

(** C7 at a tie.  For the normal (1, 1, 0), whose two largest components
    are equal, the snap keeps both: the result is [(c, c, 0)] for one value
    [c], which is none of the six signed unit vectors.  (Whatever the host's
    square root is.) *)
Theorem snapped_tie_keeps_two_components :
  exists c, snapped (1, 1, 0) = (c, c, 0) /\ ~ In (c, c, 0) principalAxes.
Proof.
  unfold snapped, normalize.
  set (len := if num_eq (Math_sqrt (lengthSq (1, 1, 0))) 0 then 1
              else Math_sqrt (lengthSq (1, 1, 0))).
  cbn [multiplyScalar].
  set (k := 1 / len).
  set (M := Math_max (Math_max (Math_abs (1 * k)) (Math_abs (1 * k)))
                     (Math_abs (0 * k))).
  assert (Hz : Math_sign (0 * k) = 0) by (destruct k; reflexivity).
  rewrite Hz.
  exists (if num_eq (Math_abs (1 * k)) M then Math_sign (1 * k) else 0).
  split.
  - destruct (num_eq (Math_abs (0 * k)) M); reflexivity.
  - destruct (num_eq (Math_abs (1 * k)) M);
      [unfold Math_sign; destruct (Qnum (1 * k)) |];
      simpl; intuition discriminate.
Qed.

(** When one component of the normalised normal strictly dominates, the
    snap is the signed unit vector of that component. *)
Lemma snapped_dominant_x (normal : Vector3) :
  let '(nx, ny, nz) := normalize normal in
  Qabs ny < Qabs nx -> Qabs nz < Qabs nx ->
  snapped normal = (Math_sign nx, 0, 0) /\ In (snapped normal) principalAxes.
Proof.
  unfold snapped. destruct (normalize normal) as [[nx ny] nz].
  intros Hy Hz. unfold Math_max, Math_abs, num_eq.
  assert (E1 : Qle_bool (Qabs nx) (Qabs ny) = false).
  { apply not_true_is_false. intros H. apply Qle_bool_iff in H. lra. }
  rewrite E1.
  assert (E2 : Qle_bool (Qabs nx) (Qabs nz) = false).
  { apply not_true_is_false. intros H. apply Qle_bool_iff in H. lra. }
  rewrite E2.
  assert (E3 : Qeq_bool (Qabs nx) (Qabs nx) = true)
    by (apply Qeq_bool_iff; reflexivity).
  assert (E4 : Qeq_bool (Qabs ny) (Qabs nx) = false).
  { apply not_true_is_false. intros H. apply Qeq_bool_iff in H. lra. }
  assert (E5 : Qeq_bool (Qabs nz) (Qabs nx) = false).
  { apply not_true_is_false. intros H. apply Qeq_bool_iff in H. lra. }
  rewrite E3, E4, E5. split; [reflexivity |].
  assert (Hpos : 0 < Qabs nx) by (pose proof (Qabs_nonneg ny); lra).
  unfold Math_sign. destruct nx as [[| n | n] dn]; simpl; auto.
  exfalso. revert Hpos. unfold Qabs, Qlt. simpl. lia.
Qed.

(* ================================================================== *)
(** * The orientation of a committed cubie *)

(** [multiplyQuaternions a b] is the Hamilton product with [a] on the
    left. *)
Lemma multiplyQuaternions_components (a b : Quaternion) :
  multiplyQuaternions a b
  = (quat (_x a * _w b + _w a * _x b + _y a * _z b - _z a * _y b)
          (_y a * _w b + _w a * _y b + _z a * _x b - _x a * _z b)
          (_z a * _w b + _w a * _z b + _x a * _y b - _y a * _x b)
          (_w a * _w b - _x a * _x b - _y a * _y b - _z a * _z b))%float.
Proof. destruct a, b. reflexivity. Qed.

Section EighthTurn.

(** For the orientation of a commit: at plus and minus [Math.PI / 4], the
    half angle of a quarter turn, the host's sine and cosine on doubles are
    the doubles nearest to the real values. *)
Hypothesis host_eighth_turn :
  (Math_sin_d 0x1.921fb54442d18p-1 = 0x1.6a09e667f3bccp-1
   /\ Math_sin_d (-0x1.921fb54442d18p-1) = -0x1.6a09e667f3bccp-1
   /\ Math_cos_d 0x1.921fb54442d18p-1 = 0x1.6a09e667f3bcdp-1
   /\ Math_cos_d (-0x1.921fb54442d18p-1) = 0x1.6a09e667f3bcdp-1)%float.

(** On the host's values at the eighth turn, [setFromAxisAngle] at the
    angle of a move is the quaternion of the quarter turn about the axis. *)
Lemma setFromAxisAngle_quarter (a : Axis) (d : Z) (angle : float) :
  d = 1%Z \/ d = (-1)%Z ->
  toDouble (inject_Z d * (Math_PI / 2)) = Some angle ->
  setFromAxisAngle (axisVec_d a) angle = quarterTurnQuat a d.
Proof.
  intros Hd Hangle. rewrite (toDouble_quarter d Hd) in Hangle.
  injection Hangle as <-.
  destruct host_eighth_turn as [Hs [Hs' [Hc Hc']]].
  unfold setFromAxisAngle, quarterTurnQuat.
  destruct Hd as [-> | ->]; cbn [Z.eqb Pos.eqb].
  - change (0x1.921fb54442d18p+0 / 2)%float with 0x1.921fb54442d18p-1%float.
    rewrite Hs, Hc. reflexivity.
  - change (-0x1.921fb54442d18p+0 / 2)%float
      with (-0x1.921fb54442d18p-1)%float.
    rewrite Hs', Hc'. reflexivity.
Qed.

(** The rotation matrix of that quaternion is, up to rounding, the matrix
    of the quarter turn; and that matrix is the one [turn] applies. *)
Lemma quarterTurnQuat_matrix (a : Axis) (d : Z) :
  d = 1%Z \/ d = (-1)%Z ->
  closeM (makeRotationFromQuaternion (quarterTurnQuat a d))
         (matrix_d (quarterTurnMatrix a d)) = true.
Proof. intros [-> | ->]; destruct a; vm_compute; reflexivity. Qed.

Lemma quarterTurnMatrix_turn (a : Axis) (d : Z) (p : Vector3) :
  In p grid -> d = 1%Z \/ d = (-1)%Z ->
  applyMatrix (quarterTurnMatrix a d) p = turn a (inject_Z d) p.
Proof.
  intros Hp Hd.
  cbv [grid loop3 flat_map map app] in Hp.
  destruct Hd as [-> | ->];
    repeat (destruct Hp as [<- | Hp]); try contradiction;
    destruct a; vm_compute; reflexivity.
Qed.

(** C9.  When a move is committed, an active cubie, whatever Euler angles
    it carries, gets the Euler angles read back from [rotQuat * objQuat]:
    the Hamilton product with the quaternion of the move on the left of the
    quaternion of the previous orientation.  On a host whose sine and
    cosine at plus and minus [Math.PI / 4] are the nearest doubles,
    [rotQuat] is the unit quaternion of the quarter turn of the move's
    direction about the move's axis; its rotation matrix is, within 2^-48
    entry by entry, the integer matrix of that quarter turn, which is the
    matrix that turns the logical positions. *)
Theorem commit_premultiplies_orientation (a : Axis) (d : Z) (ids : list nat)
  (c : CubieData) :
  d = 1%Z \/ d = (-1)%Z ->
  includes ids (id c) = true ->
  exists c' angle,
    let objQuat := setFromEuler (rotation c) in
    let rotQuat := setFromAxisAngle (axisVec_d a) angle in
    toDouble (inject_Z d * (Math_PI / 2)) = Some angle
    /\ commitCubie a (inject_Z d * (Math_PI / 2)) ids c = Some c'
    /\ rotQuat = quarterTurnQuat a d
    /\ closeM (makeRotationFromQuaternion rotQuat)
              (matrix_d (quarterTurnMatrix a d)) = true
    /\ (forall p, In p grid ->
          applyMatrix (quarterTurnMatrix a d) p = turn a (inject_Z d) p)
    /\ rotation c' = setFromQuaternion (multiplyQuaternions rotQuat objQuat)
    /\ multiplyQuaternions rotQuat objQuat
       = (quat (_x rotQuat * _w objQuat + _w rotQuat * _x objQuat
                + _y rotQuat * _z objQuat - _z rotQuat * _y objQuat)
               (_y rotQuat * _w objQuat + _w rotQuat * _y objQuat
                + _z rotQuat * _x objQuat - _x rotQuat * _z objQuat)
               (_z rotQuat * _w objQuat + _w rotQuat * _z objQuat
                + _x rotQuat * _y objQuat - _y rotQuat * _x objQuat)
               (_w rotQuat * _w objQuat - _x rotQuat * _x objQuat
                - _y rotQuat * _y objQuat - _z rotQuat * _z objQuat))%float.
Proof.
  intros Hd Hin.
  pose proof (toDouble_quarter d Hd) as Hangle.
  eexists. eexists. cbv zeta.
  split; [exact Hangle |].
  split; [unfold commitCubie; rewrite Hin, Hangle; reflexivity |].
  pose proof (setFromAxisAngle_quarter a d _ Hd Hangle) as Hq.
  split; [exact Hq |].
  split; [rewrite Hq; now apply quarterTurnQuat_matrix |].
  split; [intros p Hp; now apply quarterTurnMatrix_turn |].
  split; [reflexivity |].
  apply multiplyQuaternions_components.
Qed.

End EighthTurn.

(* ================================================================== *)
(** * The arrows of a centre piece *)

Lemma getRotationResult_exact (a : Axis) (d : Z) (p : Vector3) :
  In p grid -> d = 1%Z \/ d = (-1)%Z ->
  getRotationResult p a (d # 1) = turn a (d # 1) p.
Proof. intros Hp Hd. unfold getRotationResult. now apply rotate_exact. Qed.

Ltac exact_rotation :=
  match goal with
  | |- context [getRotationResult ?p ?a (?d # 1)] =>
      rewrite (getRotationResult_exact a d p);
      [ | apply memV_In; vm_compute; reflexivity | auto ]
  end.

(** The centre piece of a move's face does not move under the move. *)
Lemma faceCentre_fixed (m : MoveType) :
  let '(a, l, d) := parseMove m in
  getRotationResult (faceCentre m) a d = faceCentre m.
Proof. destruct m; cbv [parseMove move_head includes_prime String.eqb Ascii.eqb Bool.eqb faceCentre Qmult Qnum Qden Z.mul Pos.mul]; exact_rotation; reflexivity. Qed.

(** The centre case of [generateArrow] at a concrete move: expose the
    rotation, make it exact, settle the alignment test with [H] and the
    displacement test by computation. *)
Ltac centre_case H :=
  cbv -[getRotationResult normalize Qgtb Qltb Math_abs dot lengthSq vsub vadd
        multiplyScalar crossVectors axisVec] in H |- *;
  exact_rotation;
  rewrite H;
  match goal with
  | |- context [Qltb ?a ?b] =>
      let v := eval vm_compute in (Qltb a b) in change (Qltb a b) with v
  end;
  cbv beta iota.

(** C6, as the code has it.  For the centre piece of a move's face (the
    move does not displace it), [generateArrow] pushes one cue for the move
    whenever the clicked normal is aligned with the move's axis, and none
    otherwise -- for the primed code just as for the plain one.  Only the
    older [addArrow] keeps the clockwise code alone: four ring cues for a
    plain code, none for a primed one. *)
Theorem centre_cues (m : MoveType) (n : Vector3) :
  getRotationResult (faceCentre m) (moveAxis m) (snd (parseMove m))
  = faceCentre m
  /\ (Qgtb (Math_abs (dot (axisVec (moveAxis m)) n)) (9 # 10) = true ->
      exists arrow,
        generateArrow (faceCentre m) n m = [arrow]
        /\ label arrow = m
        /\ key arrow = String.append (code m) "-center")
  /\ (Qgtb (Math_abs (dot (axisVec (moveAxis m)) n)) (9 # 10) = false ->
      generateArrow (faceCentre m) n m = [])
  /\ List.length (addArrow (faceCentre m) (moveAxis m) (moveLayer m) m)
     = (if includes_prime m then 0 else 4)%nat.
Proof.
  split.
  { pose proof (faceCentre_fixed m) as H. unfold moveAxis.
    destruct (parseMove m) as [[a l] d]. exact H. }
  destruct n as [[nx ny] nz].
  split; [| split].
  - intros H; destruct m;
      centre_case H; eexists; repeat split.
  - intros H; destruct m;
      centre_case H; reflexivity.
  - destruct m;
      cbv -[getRotationResult normalize List.length tangentSnap vsub lengthSq
            num_eq];
      exact_rotation; vm_compute; reflexivity.
Qed.

(* ================================================================== *)
(** * The layers of a reachable cube *)

Lemma filter_length_perm {A : Type} (f : A -> bool) (l l' : list A) :
  Permutation l l' -> List.length (filter f l) = List.length (filter f l').
Proof.
  induction 1 as [| x l l' _ IH | x y l | l l' l'' _ IH1 _ IH2]; simpl.
  - reflexivity.
  - destruct (f x); simpl; congruence.
  - destruct (f x), (f y); reflexivity.
  - congruence.
Qed.

Lemma length_filter_map {A B : Type} (g : A -> B) (f : B -> bool) (l : list A) :
  List.length (filter (fun x => f (g x)) l) = List.length (filter f (map g l)).
Proof.
  induction l as [| x l IH]; simpl; [reflexivity |].
  destruct (f (g x)); simpl; congruence.
Qed.

Lemma NoDup_map_filter {A B : Type} (g : A -> B) (f : A -> bool) (l : list A) :
  NoDup (map g l) -> NoDup (map g (filter f l)).
Proof.
  induction l as [| x l IH]; simpl; intros H; [constructor |].
  inversion H as [| ? ? Hnotin Hnd]; subst.
  destruct (f x); simpl; [| now apply IH].
  constructor; [| now apply IH].
  intros Hin. apply Hnotin. apply in_map_iff in Hin.
  destruct Hin as [y [Hy Hin]]. apply filter_In in Hin.
  rewrite <- Hy. apply in_map. tauto.
Qed.

(** On the lattice a coordinate is in a layer exactly when it equals it. *)
Lemma round_loop3 (x l : Q) :
  In x loop3 -> In l loop3 -> (num_eq (Math_round x) l = true <-> x = l).
Proof.
  cbv [loop3]. intros Hx Hl.
  destruct Hx as [<- | [<- | [<- | []]]], Hl as [<- | [<- | [<- | []]]];
    split; intros H; try reflexivity; try discriminate H;
    vm_compute in H; discriminate H.
Qed.

Lemma component_loop3 (a : Axis) (p : Vector3) :
  In p grid -> In (component a p) loop3.
Proof.
  destruct p as [[x y] z]. rewrite grid_spec. destruct a; simpl; tauto.
Qed.

Lemma includes_In (ids : list nat) (i : nat) :
  includes ids i = true <-> In i ids.
Proof.
  unfold includes. rewrite existsb_exists. split.
  - intros [j [Hj E]]. apply Nat.eqb_eq in E. now subst.
  - intros H. exists i. split; [assumption | apply Nat.eqb_refl].
Qed.

Lemma getCubiesInLayer_nine (a : Axis) (l : Q) (cs : list CubieData) :
  cubeInv cs -> In l loop3 -> List.length (getCubiesInLayer a l cs) = 9%nat.
Proof.
  intros [_ [_ Hperm]] Hl. unfold getCubiesInLayer. rewrite length_map.
  rewrite (length_filter_map position
             (fun p => num_eq (Math_round (component a p)) l)).
  rewrite (filter_length_perm _ _ _ Hperm).
  cbv [loop3] in Hl.
  destruct a; destruct Hl as [<- | [<- | [<- | []]]]; vm_compute; reflexivity.
Qed.

(** X1.  On every cube reachable by committed moves, the layer snapshot
    [getCubiesInLayer] of an axis and a coordinate -1, 0 or 1 has exactly
    nine ids, all distinct, and holds the id of a cubie exactly when the
    cubie's coordinate on that axis is the layer's. *)
Theorem layer_has_nine_cubies (a : Axis) (l : Q) (cs : list CubieData) :
  reachable cs -> In l loop3 ->
  List.length (getCubiesInLayer a l cs) = 9%nat
  /\ NoDup (getCubiesInLayer a l cs)
  /\ (forall c, In c cs ->
        (In (id c) (getCubiesInLayer a l cs)
         <-> component a (position c) = l)).
Proof.
  intros Hr Hl. apply reachable_cubeInv in Hr.
  split; [now apply getCubiesInLayer_nine |].
  destruct Hr as [Hnd [Hwf _]]. split.
  - unfold getCubiesInLayer. now apply NoDup_map_filter.
  - intros c Hc. rewrite <- includes_In, includes_layer by assumption.
    unfold inLayer. apply round_loop3; [| assumption].
    apply component_loop3. rewrite Forall_forall in Hwf. now apply Hwf.
Qed.

(* ================================================================== *)
(** * What a committed move touches *)

Lemma In_scramble_moves (m : MoveType) : In m scramble_moves.
Proof. destruct m; simpl; tauto. Qed.

(** X2.  A committed move never fails on a reachable cube.  It keeps the
    order, the ids and the home positions of the cubies; a cubie outside the
    move's layer is left exactly as it was; a cubie of the layer stays in
    the layer, at the position [getRotationResult] gives for the move's
    axis and direction. *)
Theorem commit_footprint (m : MoveType) (cs : list CubieData) :
  reachable cs ->
  exists cs',
    applyMove m cs = Some cs'
    /\ map id cs' = map id cs
    /\ map initialPosition cs' = map initialPosition cs
    /\ Forall2 (fun c c' =>
         (inLayer (moveAxis m) (moveLayer m) c = false -> c' = c)
         /\ (inLayer (moveAxis m) (moveLayer m) c = true ->
             inLayer (moveAxis m) (moveLayer m) c' = true
             /\ position c'
                = getRotationResult (position c) (moveAxis m)
                                    (moveDirection m))) cs cs'.
Proof.
  intros Hr. apply reachable_cubeInv in Hr. destruct Hr as [Hnd [Hwf _]].
  exists (map (moveCubie m) cs). split; [now apply applyMove_map |].
  split; [| split].
  - rewrite map_map. apply map_ext. apply moveCubie_id.
  - rewrite map_map. apply map_ext. apply moveCubie_initialPosition.
  - apply Forall2_map_self. intros c Hc.
    rewrite Forall_forall in Hwf. pose proof (Hwf c Hc) as Hp. unfold wf in Hp.
    unfold moveAxis, moveLayer, moveDirection.
    destruct (parseMove_cases m) as [a [l [d [Hm [Hd _]]]]].
    rewrite Hm. cbn [fst snd]. split; intros Hin.
    + exact (moveCubie_out m a (inject_Z l) (inject_Z d) c Hm Hin).
    + rewrite (moveCubie_in m a (inject_Z l) (inject_Z d) c Hm Hin).
      split; [now rewrite rotated_inLayer |].
      cbn [rotated position]. symmetry.
      now apply (getRotationResult_exact a d (position c)).
Qed.

(** X3.  A centre piece of a reachable cube keeps its position under every
    committed move, and a move of another face than its own leaves it
    untouched altogether, orientation included. *)
Theorem centre_pieces_stay (m : MoveType) (cs : list CubieData) :
  reachable cs ->
  exists cs',
    applyMove m cs = Some cs'
    /\ Forall2 (fun c c' =>
         isCentre (position c) = true ->
         position c' = position c
         /\ (faceLetter (position c) <> move_head m -> c' = c)) cs cs'.
Proof.
  intros Hr. apply reachable_cubeInv in Hr. destruct Hr as [Hnd [Hwf _]].
  exists (map (moveCubie m) cs). split; [now apply applyMove_map |].
  apply Forall2_map_self. intros c Hc Hcentre.
  rewrite Forall_forall in Hwf. pose proof (Hwf c Hc) as Hp. unfold wf in Hp.
  assert (Hall :
    forallb (fun p =>
      forallb (fun m =>
        negb (isCentre p)
        || (V_same (movePos m p) p
            && (String.eqb (faceLetter p) (move_head m)
                || negb (num_eq (Math_round (component (moveAxis m) p))
                                (moveLayer m)))))
        [U; D; L; R; F; B; U'; D'; L'; R'; F'; B']) grid = true)
    by (vm_compute; reflexivity).
  rewrite forallb_forall in Hall. specialize (Hall _ Hp).
  rewrite forallb_forall in Hall. specialize (Hall m (In_scramble_moves m)).
  rewrite Hcentre in Hall. cbn [negb orb] in Hall.
  apply andb_prop in Hall. destruct Hall as [Hfix Hout].
  split.
  - rewrite moveCubie_position. now apply V_same_eq.
  - intros Hface. apply String.eqb_neq in Hface. rewrite Hface in Hout.
    cbn [orb] in Hout. apply negb_true_iff in Hout.
    unfold moveAxis, moveLayer in Hout.
    destruct (parseMove m) as [[a l] d] eqn:Hm. cbn [fst snd] in Hout.
    exact (moveCubie_out m a l d c Hm Hout).
Qed.

(* ================================================================== *)
(** * How committed moves compose *)

Lemma Forall2_map_map {A B : Type} (R : B -> B -> Prop) (f g : A -> B)
  (l : list A) :
  (forall x, In x l -> R (f x) (g x)) -> Forall2 R (map f l) (map g l).
Proof.
  induction l as [| x l IH]; simpl; intros H; constructor; auto.
Qed.

(** On the lattice, three quarter turns of a layer are the opposite
    quarter turn, and two moves about the same axis commute. *)
Lemma movePos_three (m : MoveType) (p : Vector3) :
  In p grid ->
  movePos m (movePos m (movePos m p)) = movePos (counterpart m) p.
Proof.
  intros Hp.
  assert (Hall :
    forallb (fun p =>
      forallb (fun m =>
        V_same (movePos m (movePos m (movePos m p)))
               (movePos (counterpart m) p))
        scramble_moves) grid = true)
    by (vm_compute; reflexivity).
  rewrite forallb_forall in Hall. specialize (Hall _ Hp).
  rewrite forallb_forall in Hall. specialize (Hall m (In_scramble_moves m)).
  now apply V_same_eq.
Qed.

Lemma movePos_commute (m1 m2 : MoveType) (p : Vector3) :
  moveAxis m1 = moveAxis m2 -> In p grid ->
  movePos m2 (movePos m1 p) = movePos m1 (movePos m2 p).
Proof.
  intros Hax Hp.
  assert (Hall :
    forallb (fun p =>
      forallb (fun m1 =>
        forallb (fun m2 =>
          negb (sameAxis m1 m2)
          || V_same (movePos m2 (movePos m1 p)) (movePos m1 (movePos m2 p)))
          scramble_moves) scramble_moves) grid = true)
    by (vm_compute; reflexivity).
  rewrite forallb_forall in Hall. specialize (Hall _ Hp).
  rewrite forallb_forall in Hall. specialize (Hall m1 (In_scramble_moves m1)).
  rewrite forallb_forall in Hall. specialize (Hall m2 (In_scramble_moves m2)).
  assert (Hs : sameAxis m1 m2 = true)
    by (unfold sameAxis; rewrite Hax; destruct (moveAxis m2); reflexivity).
  rewrite Hs in Hall. cbn [negb orb] in Hall. now apply V_same_eq.
Qed.

(** X4.  On a reachable cube, three commits of a move and one commit of its
    counterpart both succeed, and the two cubes they give agree cubie by
    cubie, in the same order, on the ids, the logical positions and the home
    positions. *)
Theorem three_turns_are_the_counterpart (m : MoveType) (cs : list CubieData) :
  reachable cs ->
  exists cs3 cs',
    applyMoves [m; m; m] cs = Some cs3
    /\ applyMove (counterpart m) cs = Some cs'
    /\ Forall2 (fun c3 c' =>
                  id c3 = id c'
                  /\ position c3 = position c'
                  /\ initialPosition c3 = initialPosition c') cs3 cs'.
Proof.
  intros Hr. apply reachable_cubeInv in Hr.
  rewrite applyMoves_map by assumption. cbn [fold_left].
  destruct Hr as [Hnd [Hwf _]]. rewrite applyMove_map by assumption.
  eexists. eexists. split; [reflexivity |]. split; [reflexivity |].
  rewrite !map_map. apply Forall2_map_map.
  intros c Hc. rewrite Forall_forall in Hwf.
  pose proof (Hwf c Hc) as Hp. unfold wf in Hp.
  rewrite !moveCubie_id, !moveCubie_initialPosition, !moveCubie_position.
  rewrite (movePos_three m _ Hp). auto.
Qed.

(** X5.  Two moves about the same axis commute on the logical positions:
    on a reachable cube, committing them in either order succeeds, and the
    two cubes agree cubie by cubie, in the same order, on the ids, the
    logical positions and the home positions.  (R and L', U and D, a move
    and itself, ...) *)
Theorem same_axis_moves_commute (m1 m2 : MoveType) (cs : list CubieData) :
  moveAxis m1 = moveAxis m2 -> reachable cs ->
  exists cs12 cs21,
    applyMoves [m1; m2] cs = Some cs12
    /\ applyMoves [m2; m1] cs = Some cs21
    /\ Forall2 (fun c12 c21 =>
                  id c12 = id c21
                  /\ position c12 = position c21
                  /\ initialPosition c12 = initialPosition c21) cs12 cs21.
Proof.
  intros Hax Hr. apply reachable_cubeInv in Hr.
  rewrite !applyMoves_map by assumption. cbn [fold_left].
  eexists. eexists. split; [reflexivity |]. split; [reflexivity |].
  rewrite !map_map. apply Forall2_map_map.
  intros c Hc. destruct Hr as [_ [Hwf _]]. rewrite Forall_forall in Hwf.
  pose proof (Hwf c Hc) as Hp. unfold wf in Hp.
  rewrite !moveCubie_id, !moveCubie_initialPosition, !moveCubie_position.
  rewrite (movePos_commute m1 m2 _ Hax Hp). auto.
Qed.

(* ================================================================== *)
(** * The scheduler at large *)

Lemma tickSpeed_cases (s : State) :
  tickSpeed s = ANIMATION_SPEED * 4 \/ tickSpeed s = ANIMATION_SPEED.
Proof.
  unfold tickSpeed. destruct (5 <? List.length (animationQueue s))%nat; auto.
Qed.

Lemma useFrame_flightInv (s s' : State) :
  schedInv s -> flightInv s -> useFrame s = Some s' -> flightInv s'.
Proof.
  intros Hinv Hf H. pose proof Hinv as [Hr Hc]. unfold flightInv in *.
  destruct (currentMove s) as [cm |] eqn:Hcm.
  - destruct Hf as [Ha [Hlo [Hhi Hnine]]].
    destruct (Qle_bool TOTAL_ROTATION (progress cm + tickSpeed s)) eqn:Hge.
    + rewrite (useFrame_commit s cm Ha Hcm Hge) in H.
      destruct (commitMove _ _ _ _) as [cs' |]; cbn [obind] in H;
        [| discriminate].
      injection H as <-. reflexivity.
    + rewrite (useFrame_advance s cm Ha Hcm Hge) in H. injection H as <-.
      cbn [withProgress currentMove isAnimating progress activeCubieIds].
      split; [assumption |]. split; [| split; [| assumption]].
      * destruct (tickSpeed_cases s) as [-> | ->];
          unfold ANIMATION_SPEED; lra.
      * apply Qnot_le_lt. intros Hle. apply Qle_bool_iff in Hle. congruence.
  - destruct (animationQueue s) as [| m rest] eqn:Hq.
    + rewrite (useFrame_idle s Hf Hq) in H. injection H as <-.
      now rewrite Hcm.
    + rewrite (useFrame_begin s m rest Hf Hq) in H. injection H as <-.
      destruct (parseMove_cases m) as [a [l [d [-> [_ Hl]]]]].
      cbn [currentMove isAnimating progress activeCubieIds].
      split; [reflexivity |].
      split; [destruct (5 <? List.length rest)%nat; reflexivity |].
      split; [destruct (5 <? List.length rest)%nat; reflexivity |].
      apply getCubiesInLayer_nine; [now apply reachable_cubeInv |].
      destruct Hl as [-> | ->]; simpl; auto.
Qed.

(** On a list of queued moves, [scrambleCube]'s loop only appends. *)
Lemma fold_triggerRotate (g : nat -> MoveType) (l : list nat) (s : State) :
  fold_left (fun st i => triggerRotate (g i) st) l s
  = mkState (cubies s) (selectedCubieId s) (clickedFaceNormal s)
            (isAnimating s) (animationQueue s ++ map g l) (currentMove s)
            (availableFaces s).
Proof.
  revert s. induction l as [| i l IH]; intros s; simpl.
  - rewrite app_nil_r. now destruct s.
  - rewrite IH. unfold triggerRotate. simpl. now rewrite <- app_assoc.
Qed.

Lemma scrambleCube_eq (random : nat -> float) (s : State) :
  scrambleCube random s
  = mkState (cubies s) None None (isAnimating s)
      (animationQueue s
       ++ map (fun i =>
                 nth (Z.to_nat (Math_floor_d (random i
                                              * length_d scramble_moves)))
                     scramble_moves U) (seq 0 25))
      (currentMove s) (availableFaces s).
Proof.
  unfold scrambleCube. cbv zeta.
  generalize (seq 0 25). intros l.
  exact (f_equal
           (fun st => mkState (cubies st) None None (isAnimating st)
                        (animationQueue st) (currentMove st)
                        (availableFaces st))
           (fold_triggerRotate _ l s)).
Qed.

Lemma handle_flightInv (e : Event) (s s' : State) :
  schedInv s -> flightInv s -> handle e s = Some s' -> flightInv s'.
Proof.
  intros Hinv Hf H. destruct e as [| m | random | | normal cubie]; simpl in H.
  - eapply useFrame_flightInv; eassumption.
  - injection H as <-. exact Hf.
  - injection H as <-. rewrite scrambleCube_eq. exact Hf.
  - injection H as <-. reflexivity.
  - injection H as <-. unfold handleCubieClick.
    destruct (isAnimating s) eqn:E; [exact Hf |].
    unfold flightInv in *. cbn [currentMove isAnimating].
    destruct (currentMove s); [| congruence].
    destruct Hf as [Ha _]. congruence.
Qed.

Lemma run_invariants (es : list Event) (s : State) :
  schedInv s -> flightInv s ->
  exists s', run es s = Some s' /\ schedInv s' /\ flightInv s'.
Proof.
  revert s. induction es as [| e es IH]; intros s H Hf; simpl.
  - exists s. auto.
  - destruct (handle_schedInv e s H) as [s1 [H1 Hinv1]].
    rewrite H1. cbn [obind]. apply IH; [assumption |].
    exact (handle_flightInv e s s1 H Hf H1).
Qed.

(** No committed move creates, drops or reorders a cubie. *)
Lemma reachable_ids (cs : list CubieData) :
  reachable cs ->
  map id cs = seq 0 27 /\ map initialPosition cs = grid.
Proof.
  induction 1 as [| m cs cs' Hr [IH1 IH2] H].
  - split; vm_compute; reflexivity.
  - apply reachable_cubeInv in Hr. destruct Hr as [Hnd [Hwf _]].
    rewrite applyMove_map in H by assumption. injection H as <-.
    rewrite !map_map. split.
    + rewrite <- IH1. apply map_ext. apply moveCubie_id.
    + rewrite <- IH2. apply map_ext. apply moveCubie_initialPosition.
Qed.

(** X6.  Whatever happens to the component -- ticks, queued moves,
    scrambles, resets, clicks, in any order -- no step fails.  The cube
    keeps its 27 cubies in their order, with the ids 0 to 26 and the home
    positions they were created with, and their logical positions are a
    permutation of the lattice.  A move is in flight
    exactly when the scheduler is animating, and then its progress is
    strictly between 0 and the quarter turn and its active set has nine
    ids. *)
Theorem scheduler_keeps_invariants (es : list Event) :
  exists s,
    run es initialState = Some s
    /\ cubeInv (cubies s)
    /\ map id (cubies s) = seq 0 27
    /\ map initialPosition (cubies s) = grid
    /\ flightInv s
    /\ (isAnimating s = true <-> currentMove s <> None).
Proof.
  destruct (run_invariants es initialState initial_schedInv eq_refl)
    as [s [H [[Hr _] Hf]]].
  exists s. split; [assumption |].
  split; [now apply reachable_cubeInv |].
  destruct (reachable_ids _ Hr) as [Hid Hhome].
  split; [assumption |]. split; [assumption |]. split; [assumption |].
  unfold flightInv in Hf. destruct (currentMove s).
  - destruct Hf as [-> _]. split; [discriminate | reflexivity].
  - rewrite Hf. split; [discriminate | congruence].
Qed.

Lemma ticks_app (n k : nat) (s : State) :
  ticks (n + k) s = (s' <- ticks n s ;; ticks k s').
Proof.
  revert s. induction n as [| n IH]; intros s; simpl; [reflexivity |].
  destruct (useFrame s) as [s1 |]; simpl; [apply IH | reflexivity].
Qed.

(** X7.  From an idle scheduler the queue is worked off in order: after
    eleven ticks for each move (three for a move behind which more than
    five wait) the cube is [applyMoves] of the whole queue, the queue is
    empty, the scheduler is idle, and the selection is as it was. *)
Theorem queue_drains_in_order (s : State) :
  schedInv s -> isAnimating s = false ->
  exists cs',
    applyMoves (animationQueue s) (cubies s) = Some cs'
    /\ ticks (ticksFor (animationQueue s)) s
       = Some (mkState cs' (selectedCubieId s) (clickedFaceNormal s) false []
                       None (availableFaces s)).
Proof.
  remember (animationQueue s) as q eqn:Hq. revert s Hq.
  induction q as [| m rest IH]; intros s Hq Hinv Ha.
  - exists (cubies s). split; [reflexivity |]. simpl.
    destruct Hinv as [_ Hc]. destruct s as [cs sel nrm an qu cm av].
    cbn in *. subst. destruct cm as [cm |]; [| reflexivity].
    destruct Hc as [Hc _]. discriminate.
  - destruct (ticks_one_move s m rest Hinv Ha (eq_sym Hq)) as [cs1 [H1 Ht]].
    set (s1 := mkState cs1 (selectedCubieId s) (clickedFaceNormal s) false
                       rest None (availableFaces s)) in *.
    assert (Hinv1 : schedInv s1).
    { split; [| reflexivity]. destruct Hinv as [Hr _].
      eapply reach_move; eassumption. }
    destruct (IH s1 eq_refl Hinv1 eq_refl) as [cs' [H2 Ht2]].
    exists cs'. split.
    + cbn [applyMoves]. rewrite H1. exact H2.
    + cbn [ticksFor]. rewrite ticks_app, Ht. cbn [obind]. exact Ht2.
Qed.


Lemma useFrame_scheduler (s1 s2 : State) :
  scheduler s1 = scheduler s2 ->
  option_map scheduler (useFrame s1) = option_map scheduler (useFrame s2).
Proof.
  destruct s1 as [cs1 sel1 nrm1 an1 qu1 cm1 av1],
           s2 as [cs2 sel2 nrm2 an2 qu2 cm2 av2].
  unfold scheduler. cbn [cubies isAnimating animationQueue currentMove].
  intros H. injection H as -> -> -> ->.
  unfold useFrame, beginMove.
  cbn [cubies isAnimating animationQueue currentMove selectedCubieId
       clickedFaceNormal availableFaces].
  destruct (negb an2 && (0 <? List.length qu2)%nat).
  - destruct qu2 as [| m rest]; [| destruct (parseMove m) as [[a l] d]];
      unfold advanceMove;
      cbn [cubies isAnimating animationQueue currentMove selectedCubieId
           clickedFaceNormal availableFaces];
      repeat match goal with
             | |- context [match ?x with _ => _ end] => destruct x
             end;
      cbn [type axis layer direction progress activeCubieIds];
      try match goal with
          | |- context [commitMove ?a ?b ?c ?d] => destruct (commitMove a b c d)
          end;
      reflexivity.
  - unfold advanceMove;
      cbn [cubies isAnimating animationQueue currentMove selectedCubieId
           clickedFaceNormal availableFaces];
      repeat match goal with
             | |- context [match ?x with _ => _ end] => destruct x
             end;
      cbn [type axis layer direction progress activeCubieIds];
      try match goal with
          | |- context [commitMove ?a ?b ?c ?d] => destruct (commitMove a b c d)
          end;
      reflexivity.
Qed.

Lemma click_scheduler (normal : option Vector3) (cubie : CubieData)
  (s : State) : scheduler (handleCubieClick normal cubie s) = scheduler s.
Proof.
  unfold handleCubieClick. destruct (isAnimating s) eqn:E; [reflexivity |].
  unfold scheduler. cbn. now rewrite E.
Qed.

Lemma handle_scheduler (e : Event) (s1 s2 : State) :
  scheduler s1 = scheduler s2 ->
  option_map scheduler (handle e s1) = option_map scheduler (handle e s2).
Proof.
  intros H. destruct e as [| m | random | | normal cubie]; cbn [handle].
  - now apply useFrame_scheduler.
  - unfold scheduler in *. cbn. injection H as -> -> -> ->. reflexivity.
  - rewrite !scrambleCube_eq. unfold scheduler in *. cbn.
    injection H as -> -> -> ->. reflexivity.
  - reflexivity.
  - cbn [option_map]. rewrite !click_scheduler. now rewrite H.
Qed.

(** X9.  Clicks never reach the scheduler: removing every click from a
    sequence of events leaves the cube, the queue, the animating flag and
    the move in flight of the final state as they were (and the run fails
    in neither case or in both). *)
Theorem clicks_do_not_touch_the_scheduler (es : list Event) (s : State) :
  option_map scheduler (run es s)
  = option_map scheduler (run (filter (fun e => negb (isClick e)) es) s).
Proof.
  assert (Hgen : forall es s1 s2,
    scheduler s1 = scheduler s2 ->
    option_map scheduler (run es s1)
    = option_map scheduler (run (filter (fun e => negb (isClick e)) es) s2)).
  { clear es s. induction es as [| e es IH]; intros s1 s2 H.
    - simpl. now rewrite H.
    - destruct e as [| m | random | | normal cubie];
        try (cbn [filter isClick negb run];
             match goal with
             | |- context [handle ?e s1] =>
                 pose proof (handle_scheduler e s1 s2 H) as He;
                 destruct (handle e s1) as [t1 |], (handle e s2) as [t2 |];
                 cbn [option_map obind] in *; try discriminate;
                 [ apply IH; congruence | reflexivity ]
             end).
      cbn [filter isClick negb run handle obind]. apply IH.
      now rewrite click_scheduler. }
  now apply Hgen.
Qed.

(* ================================================================== *)
(** * The geometry helpers on their own *)

Lemma component_turn (a : Axis) (d : Q) (p : Vector3) :
  component a (turn a d p) = component a p.
Proof. destruct p as [[x y] z]. destruct a; reflexivity. Qed.

(** X10.  On a lattice point and for a direction 1 or -1,
    [getRotationResult] gives a lattice point again with the coordinate on
    the axis unchanged; turning back with the opposite direction, or
    turning four times, gives the point back. *)
Theorem getRotationResult_on_lattice (a : Axis) (d : Q) (p : Vector3) :
  In p grid -> d = 1 \/ d = -1 ->
  In (getRotationResult p a d) grid
  /\ component a (getRotationResult p a d) = component a p
  /\ getRotationResult (getRotationResult p a d) a (- d) = p
  /\ getRotationResult
       (getRotationResult (getRotationResult (getRotationResult p a d) a d)
          a d) a d = p.
Proof.
  intros Hp Hd.
  assert (Hz : exists dz : Z,
             (dz = 1%Z \/ dz = (-1)%Z) /\ d = (dz # 1) /\ - d = (- dz # 1)).
  { destruct Hd as [-> | ->]; [exists 1%Z | exists (-1)%Z]; auto. }
  destruct Hz as [dz [Hdz [-> ->]]].
  assert (Hdz' : (- dz = 1 \/ - dz = -1)%Z) by lia.
  pose proof (turn_grid a dz p Hp Hdz) as H1.
  pose proof (turn_grid a dz _ H1 Hdz) as H2.
  pose proof (turn_grid a dz _ H2 Hdz) as H3.
  change (inject_Z dz) with (dz # 1) in H1, H2, H3.
  rewrite (getRotationResult_exact a dz p Hp Hdz).
  rewrite (getRotationResult_exact a (- dz) _ H1 Hdz').
  rewrite (getRotationResult_exact a dz _ H1 Hdz).
  rewrite (getRotationResult_exact a dz _ H2 Hdz).
  rewrite (getRotationResult_exact a dz _ H3 Hdz).
  destruct (turn_cycle a dz p Hp Hdz) as [H4 Hback].
  split; [exact H1 |]. split; [apply component_turn |].
  split; [exact Hback | exact H4].
Qed.

Lemma Math_round_idempotent (q : Q) : Math_round (Math_round q) = Math_round q.
Proof.
  unfold Math_round at 2 3. apply Math_round_near.
  apply Qabs_Qlt_condition. split; lra.
Qed.

(** X11.  [round] sends every number within 1/2 of an integer to that
    integer, and a number half-way between two integers to the upper one;
    rounding a rounded vector changes nothing. *)
Theorem round_snaps_to_the_nearest_integer (n : Z) (q : Q) (v : Vector3) :
  (Qabs (q - inject_Z n) < 1 # 2 -> round q = inject_Z n)
  /\ round (inject_Z n + (1 # 2)) = inject_Z (n + 1)
  /\ roundVector (roundVector v) = roundVector v.
Proof.
  split; [apply Math_round_near |]. split.
  - unfold round, Math_round. f_equal.
    assert (E : inject_Z n + (1 # 2) + (1 # 2) == inject_Z (n + 1)).
    { rewrite inject_Z_plus. change (inject_Z 1) with 1. ring. }
    rewrite E. apply Qfloor_Z.
  - destruct v as [[x y] z]. unfold roundVector, round.
    now rewrite !Math_round_idempotent.
Qed.

(* ================================================================== *)
(** * The selection resolver at large *)

Lemma In_if_singleton {A : Type} (b : bool) (s f : A) :
  In f (if b then [s] else []) <-> b = true /\ f = s.
Proof.
  destruct b; simpl; split.
  - intros [H | []]. auto.
  - intros [_ H]. auto.
  - intros [].
  - intros [H _]. discriminate.
Qed.

(** X13.  The letters a click reports are exactly the faces whose moves
    turn the clicked piece: a letter is in [validFaces] of the piece's
    position exactly when it is the first character of a move code in whose
    layer the piece lies.  The list only depends on the rounded position. *)
Theorem reported_letters_are_the_turning_faces (c : CubieData) (f : string) :
  (In f (validFaces (position c))
   <-> exists m, move_head m = f
                 /\ inLayer (moveAxis m) (moveLayer m) c = true)
  /\ validFaces (roundVector (position c)) = validFaces (position c).
Proof.
  split.
  - unfold validFaces, inLayer. destruct (position c) as [[x y] z].
    unfold roundVector, round. cbn [List.concat].
    rewrite !in_app_iff, !In_if_singleton, !andb_true_iff.
    split.
    + intros H.
      repeat match type of H with
             | _ \/ _ => destruct H as [H | H]
             end;
        try contradiction;
        repeat match type of H with
               | _ /\ _ => let H' := fresh in destruct H as [H H']
               end; subst f.
      * exists R. auto.
      * exists L. auto.
      * exists U. auto.
      * exists D. auto.
      * exists F. auto.
      * exists B. auto.
      * exists F. auto.
      * exists B. auto.
      * exists R. auto.
      * exists L. auto.
      * exists U. auto.
      * exists D. auto.
    + intros [m [<- Hin]]. destruct m; cbn in Hin; cbn [move_head]; tauto.
  - unfold validFaces. destruct (position c) as [[x y] z].
    unfold roundVector, round. now rewrite !Math_round_idempotent.
Qed.

(** X14.  For a piece on the lattice, a click reports as many letters as
    the position has non-zero coordinates, and one more for a centre piece,
    whose letter comes twice; the letters are distinct exactly when the
    piece is no centre. *)
Theorem validFaces_count (pos : Vector3) :
  In (roundVector pos) grid ->
  List.length (validFaces pos)
  = (nonZero (component ax_x (roundVector pos))
     + nonZero (component ax_y (roundVector pos))
     + nonZero (component ax_z (roundVector pos))
     + (if isCentre (roundVector pos) then 1 else 0))%nat
  /\ (NoDup (validFaces pos) <-> isCentre (roundVector pos) = false).
Proof.
  intros Hp. unfold validFaces.
  destruct (roundVector pos) as [[x y] z].
  cbv [grid loop3 flat_map map app] in Hp.
  repeat (destruct Hp as [Hp | Hp];
          [ injection Hp as <- <- <-; split; [reflexivity |];
            vm_compute; split; intros H;
            [ first [ reflexivity
                    | exfalso; inversion H as [| ? ? Hn _]; apply Hn;
                      simpl; auto ]
            | first [ discriminate H
                    | repeat (constructor; [simpl; intuition discriminate |]);
                      constructor ] ]
          | ]).
  contradiction.
Qed.

Lemma Qle_bool_false (a b : Q) : Qle_bool a b = false -> b < a.
Proof.
  intros H. apply Qnot_le_lt. intros Hle. apply Qle_bool_iff in Hle.
  congruence.
Qed.

(* ================================================================== *)
(** * The cues of [ArrowIndicators], whatever the piece and the normal *)

(** [generateArrow] pushes nothing, or one arrow that carries its move code
    and is keyed by it, and then the piece lies in the move's layer. *)
Lemma generateArrow_cases (p n : Vector3) (m : MoveType) :
  generateArrow p n m = []
  \/ exists a,
       generateArrow p n m = [a]
       /\ label a = m
       /\ (key a = String.append (code m) "-center"
           \/ key a = String.append (code m) "-edge")
       /\ num_eq (component (moveAxis m) p) (moveLayer m) = true.
Proof.
  destruct p as [[x y] z].
  destruct m;
    cbv -[getRotationResult normalize Qgtb Qltb Math_abs dot lengthSq vsub vadd
          multiplyScalar crossVectors axisVec num_eq];
    match goal with
    | |- context [num_eq ?c ?l] => destruct (num_eq c l)
    end;
    cbv beta iota; auto;
    repeat match goal with
           | |- context [if ?b then _ else _] => destruct b
           end;
    first [ left; reflexivity
          | right; eexists; split; [reflexivity |]; cbn [label key]; auto ].
Qed.

Lemma labels_of_flat_map (g : MoveType -> list Arrow) (l : list MoveType) :
  (forall m, g m = [] \/ exists a, g m = [a] /\ label a = m) ->
  NoDup l ->
  NoDup (map label (flat_map g l)) /\ incl (map label (flat_map g l)) l.
Proof.
  intros Hg. induction l as [| m l IH]; intros Hnd; simpl.
  - split; [constructor | apply incl_refl].
  - inversion Hnd as [| ? ? Hnotin Hnd']; subst.
    destruct (IH Hnd') as [IH1 IH2].
    destruct (Hg m) as [-> | [a [-> Hl]]]; simpl.
    + split; [assumption | now apply incl_tl].
    + rewrite Hl. split.
      * constructor; [| assumption]. intros Hin. apply Hnotin. now apply IH2.
      * apply incl_cons; [now left | now apply incl_tl].
Qed.

(** X16.  Whatever the position and the normal handed to
    [ArrowIndicators], it renders at most one cue per move code; every cue
    is the one [generateArrow] makes for the code it carries (the code a
    click on it queues), its key is that code followed by [-center] or
    [-edge], so no two cues share a key's code, and the piece lies in the
    layer the code turns. *)
Theorem cues_name_their_move (p n : Vector3) :
  NoDup (map label (ArrowIndicators p n))
  /\ (forall a, In a (ArrowIndicators p n) ->
        generateArrow p n (label a) = [a]
        /\ (key a = String.append (code (label a)) "-center"
            \/ key a = String.append (code (label a)) "-edge")
        /\ num_eq (component (moveAxis (label a)) p) (moveLayer (label a))
           = true).
Proof.
  split.
  - apply labels_of_flat_map.
    + intros m. destruct (generateArrow_cases p n m) as [H | [a [H [Hl _]]]];
        [now left | right; now exists a].
    + repeat (constructor; [simpl; intuition discriminate |]). constructor.
  - intros a Ha. unfold ArrowIndicators in Ha. apply in_flat_map in Ha.
    destruct Ha as [m [_ Ha]].
    destruct (generateArrow_cases p n m) as [H | [a' [H [Hl [Hk Hin]]]]];
      rewrite H in Ha; [contradiction |].
    destruct Ha as [<- | []]. rewrite Hl. auto.
Qed.

(* ================================================================== *)
(** * The cues of a piece on the lattice, for the face that was clicked *)












(* ================================================================== *)
(** * The cues of the older [ArrowIndicators] *)

Lemma nonZero_scale (q k : Q) : ~ k == 0 -> nonZero (q * k) = nonZero q.
Proof.
  intros Hk. unfold nonZero, num_eq.
  destruct (Qeq_bool q 0) eqn:E.
  - apply Qeq_bool_iff in E.
    assert (E' : Qeq_bool (q * k) 0 = true)
      by (apply Qeq_bool_iff; rewrite E; ring).
    now rewrite E'.
  - apply Qeq_bool_neq in E.
    assert (E' : Qeq_bool (q * k) 0 = false).
    { apply not_true_is_false. intros H. apply Qeq_bool_iff in H.
      apply Qmult_integral in H. tauto. }
    now rewrite E'.
Qed.

(** Normalising scales by a number that is not zero, whatever the host's
    square root: the zero coordinates stay the zero coordinates. *)
Lemma normalize_nonZeroCount (v : Vector3) :
  nonZeroCount (normalize v) = nonZeroCount v.
Proof.
  unfold normalize.
  set (len := if num_eq (Math_sqrt (lengthSq v)) 0 then 1
              else Math_sqrt (lengthSq v)).
  assert (Hlen : ~ len == 0).
  { unfold len, num_eq.
    destruct (Qeq_bool (Math_sqrt (lengthSq v)) 0) eqn:E;
      [discriminate | now apply Qeq_bool_neq]. }
  assert (Hk : ~ 1 / len == 0).
  { intros H. apply Hlen.
    setoid_replace len with (len * len * (1 / len)) by (now field).
    rewrite H. ring. }
  destruct v as [[x y] z]. cbn [multiplyScalar nonZeroCount].
  now rewrite !nonZero_scale.
Qed.

Ltac legacy_rotations :=
  repeat match goal with
         | |- context [getRotationResult ?p ?a (?d # 1)] =>
             rewrite (getRotationResult_exact a d p);
             [ | apply memV_In; vm_compute; reflexivity | auto ]
         end.

(** X18.  The older [ArrowIndicators], for a piece on the lattice: a centre
    piece gets four ring cues, all carrying the plain code of its face; any
    other piece gets one cue for each code in whose layer it lies -- four
    for an edge, six for a corner, none for the core -- whichever face was
    clicked. *)
Theorem legacy_cues (p : Vector3) :
  In p grid ->
  (isCentre p = true ->
     exists m, includes_prime m = false /\ faceCentre m = p
               /\ map label (ArrowIndicators_0 p) = [m; m; m; m])
  /\ (isCentre p = false ->
     map label (ArrowIndicators_0 p)
     = filter (fun m => num_eq (component (moveAxis m) p) (moveLayer m))
              legacyCodes).
Proof.
  intros Hp.
  assert (Hlabels :
    map label (ArrowIndicators_0 p)
    = if isCentre p
      then flat_map (fun m => [m; m; m; m])
             (filter (fun m => num_eq (component (moveAxis m) p) (moveLayer m))
                     [R; L; U; D; F; B])
      else filter (fun m => num_eq (component (moveAxis m) p) (moveLayer m))
                  legacyCodes).
  { cbv [grid loop3 flat_map map app] in Hp.
    repeat (destruct Hp as [<- | Hp]; [
      match goal with
      | |- _ = ?rhs =>
          let v := eval vm_compute in rhs in change rhs with v
      end;
      cbv -[getRotationResult normalize tangentSnap vsub vadd multiplyScalar
            lengthSq num_eq];
      legacy_rotations;
      repeat match goal with
             | |- context [num_eq ?a ?b] =>
                 let v := eval vm_compute in (num_eq a b) in
                 change (num_eq a b) with v
             end;
      reflexivity | ]).
    contradiction. }
  rewrite Hlabels. split; intros Hc; rewrite Hc; [| reflexivity].
  cbv [grid loop3 flat_map map app] in Hp.
  repeat (destruct Hp as [<- | Hp]; [
    first [ discriminate Hc
          | exists R; repeat split; reflexivity
          | exists L; repeat split; reflexivity
          | exists U; repeat split; reflexivity
          | exists D; repeat split; reflexivity
          | exists F; repeat split; reflexivity
          | exists B; repeat split; reflexivity ] | ]).
  contradiction.
Qed.

Ltac legacy_direction_leaf :=
  cbv -[getRotationResult normalize tangentSnap vsub vadd multiplyScalar
        lengthSq num_eq nonZeroCount];
  exact_rotation;
  match goal with
  | |- context [num_eq ?a ?b] =>
      let v := eval vm_compute in (num_eq a b) in change (num_eq a b) with v
  end;
  cbv beta iota;
  eexists; split; [reflexivity |]; split; [reflexivity |];
  cbn [arrow_direction]; rewrite normalize_nonZeroCount;
  vm_compute; reflexivity.

(** X19.  The direction of a cue of the older [addArrow], for an edge or a
    corner piece on the lattice and a code in whose layer it lies: on the
    right, left, up and down faces it runs along one axis; on the front and
    back faces it runs along one axis for a corner, but stays diagonal (two
    non-zero components) for an edge -- the branch meant for it comes after
    an empty branch with the same test. *)
Theorem legacy_cue_direction (p : Vector3) (m : MoveType) :
  In p grid -> isCentre p = false ->
  num_eq (component (moveAxis m) p) (moveLayer m) = true ->
  exists a,
    addArrow p (moveAxis m) (moveLayer m) m = [a]
    /\ label a = m
    /\ nonZeroCount (arrow_direction a)
       = (if Nat.eqb (nonZeroCount p) 2
             && match moveAxis m with ax_z => true | _ => false end
          then 2 else 1)%nat.
Proof.
  intros Hp Hc Hin. cbv [grid loop3 flat_map map app] in Hp.
  repeat (destruct Hp as [<- | Hp]; [
    first [ discriminate Hc
          | clear Hc; destruct m;
            first [ discriminate Hin | clear Hin; legacy_direction_leaf ] ]
    | ]).
  contradiction.
Qed.

(* ================================================================== *)
(** * A move in flight reaches its commit *)

Lemma tickSpeed_lower (s : State) : ANIMATION_SPEED <= tickSpeed s.
Proof.
  destruct (tickSpeed_cases s) as [-> | ->]; unfold ANIMATION_SPEED; lra.
Qed.

Lemma flight_finishes (k : nat) :
  forall (s : State) (cm : CurrentMove),
    schedInv s -> currentMove s = Some cm ->
    TOTAL_ROTATION
    <= progress cm + inject_Z (Z.of_nat (S k)) * ANIMATION_SPEED ->
    exists n cs',
      (1 <= n <= S k)%nat
      /\ applyMove (type cm) (cubies s) = Some cs'
      /\ ticks n s = Some (committed s cs').
Proof.
  induction k as [| k IH]; intros s cm Hinv Hcm Hk;
    pose proof Hinv as [Hr Hc]; rewrite Hcm in Hc; destruct Hc as [Ha [Hp Hids]];
    pose proof (tickSpeed_lower s) as Hspeed;
    destruct (Qle_bool TOTAL_ROTATION (progress cm + tickSpeed s)) eqn:Hge.
  - destruct (applyMove_total (type cm) (cubies s) (reachable_cubeInv _ Hr))
      as [cs' [Happ _]].
    exists 1%nat, cs'. split; [lia |]. split; [exact Happ |].
    cbn [ticks]. rewrite (useFrame_commit s cm Ha Hcm Hge).
    rewrite (commit_is_applyMove s cm Hinv Hcm), Happ. reflexivity.
  - exfalso. apply Qle_bool_false in Hge.
    change (inject_Z (Z.of_nat 1)) with 1 in Hk. lra.
  - destruct (applyMove_total (type cm) (cubies s) (reachable_cubeInv _ Hr))
      as [cs' [Happ _]].
    exists 1%nat, cs'. split; [lia |]. split; [exact Happ |].
    cbn [ticks]. rewrite (useFrame_commit s cm Ha Hcm Hge).
    rewrite (commit_is_applyMove s cm Hinv Hcm), Happ. reflexivity.
  - set (cm1 := mkMove (type cm) (axis cm) (layer cm) (direction cm)
                       (progress cm + tickSpeed s) (activeCubieIds cm)).
    set (s1 := withProgress s cm (progress cm + tickSpeed s)).
    assert (Hinv1 : schedInv s1).
    { split; [exact Hr |]. cbn. auto. }
    assert (Hk1 : TOTAL_ROTATION
                  <= progress cm1
                     + inject_Z (Z.of_nat (S k)) * ANIMATION_SPEED).
    { cbn [cm1 progress]. revert Hk.
      rewrite (Nat2Z.inj_succ (S k)), <- Z.add_1_r, inject_Z_plus.
      change (inject_Z 1) with 1. intros Hk. lra. }
    destruct (IH s1 cm1 Hinv1 eq_refl Hk1) as [n [cs' [Hn [Happ Ht]]]].
    exists (S n), cs'. split; [lia |]. split; [exact Happ |].
    cbn [ticks]. rewrite (useFrame_advance s cm Ha Hcm Hge).
    cbn [obind]. exact Ht.
Qed.

(** X20.  A move in flight is always committed: in a state the scheduler
    can be in, with a move in flight whose progress is positive, at most
    eleven ticks commit the move -- the cube is then [applyMove] of it, the
    scheduler is idle, and the queue and the selection are as they were. *)
Theorem move_in_flight_is_committed (s : State) (cm : CurrentMove) :
  schedInv s -> currentMove s = Some cm -> 0 < progress cm ->
  exists n cs',
    (1 <= n <= 11)%nat
    /\ applyMove (type cm) (cubies s) = Some cs'
    /\ ticks n s
       = Some (mkState cs' (selectedCubieId s) (clickedFaceNormal s) false
                       (animationQueue s) None (availableFaces s)).
Proof.
  intros Hinv Hcm Hpos.
  apply (flight_finishes 10 s cm Hinv Hcm).
  assert (H : TOTAL_ROTATION <= inject_Z (Z.of_nat 11) * ANIMATION_SPEED)
    by (vm_compute; discriminate).
  lra.
Qed.

(* ================================================================== *)
(** * The three tables of moves agree *)

(** X21.  The cue previews the turn the scheduler commits: for each of the
    twelve codes, the axis and the direction [addArrow] and [generateArrow]
    hand to [getRotationResult] are the axis and the direction the frame
    loop parses from the code, and the coordinate [generateArrow] tests is
    the layer the frame loop turns. *)
Theorem cue_tables_agree_with_the_frame_loop (m : MoveType) :
  targetOf m = (moveAxis m, moveDirection m)
  /\ (exists def_dir,
        lookup_def (baseCode m) = Some (moveAxis m, def_dir)
        /\ (if includes_prime m then def_dir * -1 else def_dir)
           = moveDirection m)
  /\ (moveLayer m = 1 \/ moveLayer m = -1)
  /\ In (moveAxis m, moveLayer m, move_head m)
        [(ax_x, 1, "R"); (ax_x, -1, "L"); (ax_y, 1, "U"); (ax_y, -1, "D");
         (ax_z, 1, "F"); (ax_z, -1, "B")]%string.
Proof.
  destruct m; (split; [reflexivity |]);
    (split; [eexists; split; reflexivity |]);
    (split; [auto |]); simpl; tauto.
Qed.

(* ================================================================== *)
(** * Undoing a sequence of moves *)

(** A move treats two cubies at the same place alike. *)
Lemma moveCubie_samePlace (m : MoveType) (c1 c2 : CubieData) :
  samePlace c1 c2 -> samePlace (moveCubie m c1) (moveCubie m c2).
Proof.
  unfold samePlace, moveCubie, inLayer. intros [Hid [Hpos Hhome]].
  destruct (parseMove m) as [[a l] d]. rewrite Hpos.
  destruct (num_eq (Math_round (component a (position c1))) l);
    cbn [rotated id position initialPosition]; rewrite ?Hpos; auto.
Qed.

Lemma fold_moveCubie_map (ms : list MoveType) (cs : list CubieData) :
  fold_left (fun cs' m => map (moveCubie m) cs') ms cs
  = map (fun c => fold_left (fun c' m => moveCubie m c') ms c) cs.
Proof.
  revert cs. induction ms as [| m ms IH]; intros cs; simpl.
  - now rewrite map_id.
  - rewrite IH, map_map. reflexivity.
Qed.

Lemma moveCubies_undo (ms : list MoveType) (c : CubieData) :
  wf c ->
  samePlace c (fold_left (fun c' m => moveCubie m c')
                         (ms ++ rev (map counterpart ms)) c).
Proof.
  revert c. induction ms as [| m ms IH]; intros c Hwf.
  - apply samePlace_refl.
  - cbn [map rev]. rewrite app_assoc. cbn [app fold_left].
    rewrite fold_left_app. cbn [fold_left].
    apply samePlace_trans
      with (moveCubie (counterpart m) (moveCubie m c)).
    + now apply moveCubie_counterpart.
    + apply moveCubie_samePlace. apply IH. now apply moveCubie_wf.
Qed.

(** X22.  Any sequence of moves is undone, on the logical positions, by the
    counterparts of its moves in reverse order: committed on a reachable
    cube one after the other, they all succeed, and the cube they leave has,
    cubie by cubie and in the same order, the ids, the logical positions and
    the home positions of the cube they started from. *)
Theorem moves_are_undone_in_reverse (ms : list MoveType)
  (cs : list CubieData) :
  reachable cs ->
  exists cs',
    applyMoves (ms ++ rev (map counterpart ms)) cs = Some cs'
    /\ Forall2 (fun c c' =>
                  id c' = id c
                  /\ position c' = position c
                  /\ initialPosition c' = initialPosition c) cs cs'.
Proof.
  intros Hr. apply reachable_cubeInv in Hr.
  rewrite applyMoves_map by assumption.
  eexists. split; [reflexivity |].
  rewrite fold_moveCubie_map. apply Forall2_map_self.
  intros c Hc. destruct Hr as [_ [Hwf _]]. rewrite Forall_forall in Hwf.
  exact (moveCubies_undo ms c (Hwf c Hc)).
Qed.

(* ================================================================== *)
(** * The cues and the reported faces *)

Lemma round_of_layer (x l : Q) :
  l = 1 \/ l = -1 -> num_eq x l = true -> num_eq (Math_round x) l = true.
Proof.
  intros Hl H. apply Qeq_bool_iff in H. unfold num_eq.
  apply Qeq_bool_iff. unfold Math_round. rewrite H.
  destruct Hl as [-> | ->]; reflexivity.
Qed.

Lemma validFaces_complete (c : CubieData) (m : MoveType) :
  inLayer (moveAxis m) (moveLayer m) c = true ->
  In (move_head m) (validFaces (position c)).
Proof.
  unfold validFaces, inLayer. destruct (position c) as [[x y] z].
  unfold roundVector, round. cbn [List.concat].
  rewrite !in_app_iff, !In_if_singleton.
  intros Hin. destruct m; cbn in Hin; cbn [move_head]; tauto.
Qed.

(** X23.  Every cue [ArrowIndicators] renders for a piece turns a face the
    click on that piece reported: the first character of the cue's code is
    among the letters [validFaces] gives for the piece's position,
    whatever the position and the normal. *)
Theorem cues_turn_reported_faces (c : CubieData) (n : Vector3) (a : Arrow) :
  In a (ArrowIndicators (position c) n) ->
  In (move_head (label a)) (validFaces (position c)).
Proof.
  intros Ha. unfold ArrowIndicators in Ha. apply in_flat_map in Ha.
  destruct Ha as [m [_ Ha]].
  destruct (generateArrow_cases (position c) n m)
    as [H | [a' [H [Hl [_ Hin]]]]]; rewrite H in Ha; [contradiction |].
  destruct Ha as [<- | []]. rewrite Hl.
  apply validFaces_complete. unfold inLayer.
  apply round_of_layer; [| exact Hin].
  destruct m; auto.
Qed.


End Host.

(* ================================================================== *)
(** * The reference host meets the assumptions; the theorems at work *)

Lemma ref_host_quarter_turn :
  forall d : Z, d = 1%Z \/ d = (-1)%Z ->
    Qabs (ref_cos (inject_Z d * (Math_PI / 2))) < 1 # 4 /\
    Qabs (ref_sin (inject_Z d * (Math_PI / 2)) - inject_Z d) < 1 # 4.
Proof.
  intros d [-> | ->]; split; vm_compute; reflexivity.
Qed.

(** The functions of the component on the reference host. *)
Abbreviation on_host f :=
  (f ref_cos ref_sin fdlibm_cos fdlibm_sin fdlibm_asin fdlibm_atan2)
  (only parsing).

Abbreviation on_host_sqrt f :=
  (f ref_cos ref_sin ref_sqrt fdlibm_cos fdlibm_sin fdlibm_asin fdlibm_atan2)
  (only parsing).

Lemma fdlibm_host_eighth_turn :
  (fdlibm_sin 0x1.921fb54442d18p-1 = 0x1.6a09e667f3bccp-1
   /\ fdlibm_sin (-0x1.921fb54442d18p-1) = -0x1.6a09e667f3bccp-1
   /\ fdlibm_cos 0x1.921fb54442d18p-1 = 0x1.6a09e667f3bcdp-1
   /\ fdlibm_cos (-0x1.921fb54442d18p-1) = 0x1.6a09e667f3bcdp-1)%float.
Proof. vm_compute. repeat split. Qed.

(** R, U, F' from the solved cube. *)
Lemma positions_permute_lattice_witness :
  exists cs,
    on_host applyMoves
               [R; U; F'] generateSolvedCube = Some cs
    /\ List.length cs = 27%nat
    /\ Permutation (map position cs) grid
    /\ NoDup (map position cs)
    /\ (forall c x y z, In c cs -> position c = (x, y, z) ->
          In x [-1; 0; 1] /\ In y [-1; 0; 1] /\ In z [-1; 0; 1]).
Proof.
  exact (on_host positions_permute_lattice ref_host_quarter_turn [R; U; F']).
Defined.





(* ------------------------------------------------------------------ *)
(** ** The scheduler on the reference host *)

Lemma state_R_in_flight_schedInv :
  on_host schedInv
           state_R_in_flight.
Proof.
  split; [apply reach_solved |].
  cbn [currentMove state_R_in_flight]. repeat split.
Qed.

(** R in flight with ten steps taken and U queued: the tick commits R, the
    next one starts U. *)
Lemma commit_tick_witness :
  exists cubies' s'' cm',
    on_host commitMove
               ax_x (-1 * (Math_PI / 2)) (activeCubieIds flight_R)
               generateSolvedCube = Some cubies'
    /\ on_host useFrame
                state_R_in_flight
       = Some (mkState cubies' None None false [U] None [])
    /\ on_host useFrame
                (mkState cubies' None None false [U] None []) = Some s''
    /\ animationQueue s'' = []
    /\ currentMove s'' = Some cm'
    /\ type cm' = U
    /\ parseMove U = (axis cm', layer cm', direction cm')
    /\ progress cm' = 0 + ANIMATION_SPEED.
Proof.
  destruct (on_host commit_tick ref_host_quarter_turn state_R_in_flight flight_R)
    as [cs [_ [H1 [H2 [_ [_ [_ [_ H3]]]]]]]].
  - exact state_R_in_flight_schedInv.
  - reflexivity.
  - apply Qle_bool_iff. vm_compute. reflexivity.
  - destruct (H3 U [] eq_refl)
      as [s'' [cm' [H4 [_ [H5 [_ [H6 [H7 [H8 [H9 _]]]]]]]]]].
    exists cs, s'', cm'. repeat split; assumption.
Defined.

(** C5 as the specification words it fails.  Queue R then U on the solved
    cube.  After ten ticks R is in flight and U is queued; the eleventh tick
    commits R and leaves the scheduler idle with U still in the queue; U
    becomes the move in flight on the twelfth tick only. *)
Lemma next_move_waits_for_next_tick :
  option_map isAnimating (on_host ticks 10 queued_R_U) = Some true
  /\ option_map animationQueue (on_host ticks 10 queued_R_U) = Some [U]
  /\ option_map cubies (on_host ticks 11 queued_R_U)
     = on_host applyMove R generateSolvedCube
  /\ option_map currentMove (on_host ticks 11 queued_R_U) = Some None
  /\ option_map isAnimating (on_host ticks 11 queued_R_U) = Some false
  /\ option_map animationQueue (on_host ticks 11 queued_R_U) = Some [U]
  /\ option_map (fun s => option_map type (currentMove s))
                (on_host ticks 12 queued_R_U) = Some (Some U).
Proof. vm_compute. repeat split. Qed.

(** The scenarios of the specification: R four times brings every piece of
    the solved cube back to its place and leaves the scheduler idle, and a
    reset in the middle of R, U, R' leaves the initial state. *)
Example scenario_R_four_times :
  option_map
    (fun s => (map id (cubies s), map position (cubies s), isAnimating s,
               animationQueue s, currentMove s))
    (on_host ticks 44
       (triggerRotate R (triggerRotate R (triggerRotate R
          (triggerRotate R initialState)))))
  = Some (map id generateSolvedCube, map position generateSolvedCube, false,
          [], None).
Proof. vm_compute. reflexivity. Qed.

Example scenario_reset_mid_animation :
  option_map resetCube
    (on_host ticks 15
       (triggerRotate R' (triggerRotate U (triggerRotate R initialState))))
  = Some initialState
  /\ option_map isAnimating
       (on_host ticks
          15
          (triggerRotate R' (triggerRotate U (triggerRotate R initialState))))
     = Some true.
Proof. vm_compute. split; reflexivity. Qed.

(* ------------------------------------------------------------------ *)
(** ** Clicks and arrows on the reference host *)

Lemma click_reports_face_letters_witness :
  (forall f, In f (availableFaces
                     (handleCubieClick ref_sqrt (Some (1, 0, 0)) corner_111
                                       initialState))
             <-> In f ["R"; "U"; "F"]%string)
  /\ (forall f, In f (availableFaces
                     (handleCubieClick ref_sqrt (Some (1, 0, 0)) edge_110
                                       initialState))
             <-> In f ["R"; "U"]%string)
  /\ (forall f, In f (availableFaces
                     (handleCubieClick ref_sqrt (Some (1, 0, 0)) centre_100
                                       initialState))
             <-> In f ["R"]%string).
Proof.
  split; [| split].
  - apply (click_reports_face_letters ref_sqrt (Some (1, 0, 0)) corner_111
             initialState); reflexivity.
  - apply (click_reports_face_letters ref_sqrt (Some (1, 0, 0)) edge_110
             initialState); reflexivity.
  - apply (click_reports_face_letters ref_sqrt (Some (1, 0, 0)) centre_100
             initialState); reflexivity.
Defined.

Lemma centre_click_reports_letter_twice_witness :
  availableFaces (handleCubieClick ref_sqrt (Some (1, 0, 0)) centre_100
                                   initialState)
  = ["R"; "R"]%string.
Proof.
  apply (centre_click_reports_letter_twice ref_sqrt (Some (1, 0, 0)) centre_100
           initialState (1, 0, 0)).
  - reflexivity.
  - apply memV_In. vm_compute. reflexivity.
  - reflexivity.
  - reflexivity.
Defined.

Lemma centre_cues_witness :
  exists arrow,
    generateArrow ref_cos ref_sin ref_sqrt (1, 0, 0) (1, 0, 0) R' = [arrow]
    /\ label arrow = R'
    /\ key arrow = "R'-center"%string.
Proof.
  destruct (centre_cues ref_cos ref_sin ref_sqrt ref_host_quarter_turn R'
              (1, 0, 0)) as [_ [H _]].
  apply H. vm_compute. reflexivity.
Defined.

(** C6 as the specification words it fails: in the centre case (R' leaves
    the piece at (1,0,0) where it is) the primed code gets its cue too. *)
Lemma primed_centre_move_has_cue :
  getRotationResult ref_cos ref_sin (1, 0, 0) ax_x 1 = (1, 0, 0)
  /\ includes_prime R' = true
  /\ map label (generateArrow ref_cos ref_sin ref_sqrt (1, 0, 0) (1, 0, 0) R')
     = [R']
  /\ map label (generateArrow ref_cos ref_sin ref_sqrt (1, 0, 0) (1, 0, 0) R)
     = [R].
Proof. vm_compute. repeat split. Qed.

(** C9 at work on the reference host.  The corner with id 26, turned by R
    to (1, 1, -1), is turned by U.  Its new Euler angles are the ones read
    back from [rotQuat * objQuat]; they stand for the rotation matrix
    [M(U) M(R)], the turns taken in the fixed frame of the cube, and not
    for [M(R) M(U)], which is what the product in the other order gives. *)
Lemma commit_premultiplies_orientation_witness :
  exists c' angle,
    let objQuat := setFromEuler fdlibm_cos fdlibm_sin (rotation corner_after_R) in
    let rotQuat :=
      setFromAxisAngle fdlibm_cos fdlibm_sin (axisVec_d ax_y) angle in
    let postEuler :=
      setFromQuaternion fdlibm_asin fdlibm_atan2 (multiply objQuat rotQuat) in
    let M_R := quarterTurnMatrix ax_x (-1) in
    let M_U := quarterTurnMatrix ax_y (-1) in
    on_host commitCubie ax_x (inject_Z (-1) * (Math_PI / 2)) [26%nat]
            corner_111 = Some corner_after_R
    /\ toDouble (inject_Z (-1) * (Math_PI / 2)) = Some angle
    /\ on_host commitCubie ax_y (inject_Z (-1) * (Math_PI / 2)) [26%nat]
               corner_after_R = Some c'
    /\ rotQuat = quarterTurnQuat ax_y (-1)
    /\ rotation c'
       = setFromQuaternion fdlibm_asin fdlibm_atan2
           (multiplyQuaternions rotQuat objQuat)
    /\ rotation c'
       = (-0x1.921fb54442d1ap+0, -0x1.8p-52, -0x1.921fb54442d18p+0)%float
    /\ postEuler = (-0x1.921fb54442d17p+0, -0x1.921fb54442d18p+0, 0)%float
    /\ closeM (eulerMatrix fdlibm_cos fdlibm_sin (rotation corner_after_R))
              (matrix_d M_R) = true
    /\ closeM (eulerMatrix fdlibm_cos fdlibm_sin (rotation c'))
              (matrix_d (matmulZ M_U M_R)) = true
    /\ closeM (eulerMatrix fdlibm_cos fdlibm_sin (rotation c'))
              (matrix_d (matmulZ M_R M_U)) = false
    /\ closeM (eulerMatrix fdlibm_cos fdlibm_sin postEuler)
              (matrix_d (matmulZ M_R M_U)) = true.
Proof.
  destruct (on_host commit_premultiplies_orientation fdlibm_host_eighth_turn
              ax_y (-1) [26%nat] corner_after_R)
    as [c' [angle [H1 [H2 [H3 [_ [_ [H4 _]]]]]]]].
  - right. reflexivity.
  - reflexivity.
  - exists c', angle. cbv zeta.
    split; [vm_compute; reflexivity |].
    split; [exact H1 |]. split; [exact H2 |]. split; [exact H3 |].
    split; [exact H4 |].
    assert (Hangle : angle = (-0x1.921fb54442d18p+0)%float).
    { vm_compute in H1. injection H1 as <-. reflexivity. }
    subst angle.
    split; [rewrite H4; vm_compute; reflexivity |].
    split; [vm_compute; reflexivity |].
    split; [vm_compute; reflexivity |].
    rewrite H4.
    split; [vm_compute; reflexivity |].
    split; vm_compute; reflexivity.
Defined.

(** On the reference host, after every single move of the solved cube,
    after R followed by any move, and after a longer sequence, the Euler
    angles of every cubie stand for the product of the quarter turns that
    moved it, each multiplied on the left of those before it. *)
Example orientation_follows_the_turns :
  forallb (fun m =>
    orientationsFollow fdlibm_cos fdlibm_sin 0x1p-48
      (on_host applyMoves [m] generateSolvedCube) [m]
    && orientationsFollow fdlibm_cos fdlibm_sin 0x1p-48
         (on_host applyMoves [R; m] generateSolvedCube) [R; m])
    scramble_moves
  = true
  /\ orientationsFollow fdlibm_cos fdlibm_sin 0x1p-20
       (on_host applyMoves [R; U; F'; L; D'; B; R; R; U'; F; L'; D]
                generateSolvedCube)
       [R; U; F'; L; D'; B; R; R; U'; F; L'; D]
     = true.
Proof. split; vm_compute; reflexivity. Qed.

(** The tie of C7 on the reference host. *)
Example snapped_tie_on_reference_host :
  snapped ref_sqrt (1, 1, 0) = (1, 1, 0)
  /\ snapped ref_sqrt (0, 0, 0) = (0, 0, 0)
  /\ snapped ref_sqrt (1, 2, 0) = (0, 1, 0).
Proof. vm_compute. repeat split. Qed.

(* ================================================================== *)
(** * The further theorems on the reference host *)


(** The cube that R then U leave, and its back layer. *)
Lemma layer_has_nine_cubies_witness :
  exists cs,
    on_host applyMoves [R; U] generateSolvedCube = Some cs
    /\ List.length (getCubiesInLayer ax_z (-1) cs) = 9%nat
    /\ NoDup (getCubiesInLayer ax_z (-1) cs).
Proof.
  destruct (on_host applyMoves_total ref_host_quarter_turn [R; U]
              generateSolvedCube solved_cubeInv) as [cs [Hcs _]].
  destruct (on_host layer_has_nine_cubies ref_host_quarter_turn ax_z (-1) cs)
    as [H9 [Hnd _]].
  - exact (on_host applyMoves_reachable [R; U] generateSolvedCube cs
             (on_host reach_solved) Hcs).
  - simpl. auto.
  - exists cs. auto.
Defined.

Lemma commit_footprint_witness :
  exists cs',
    on_host applyMove R generateSolvedCube = Some cs'
    /\ map id cs' = map id generateSolvedCube
    /\ map initialPosition cs' = map initialPosition generateSolvedCube.
Proof.
  destruct (on_host commit_footprint ref_host_quarter_turn R
              generateSolvedCube (on_host reach_solved))
    as [cs' [H1 [H2 [H3 _]]]].
  exists cs'. auto.
Defined.

Lemma centre_pieces_stay_witness :
  exists cs',
    on_host applyMove U generateSolvedCube = Some cs'
    /\ Forall2 (fun c c' =>
         isCentre (position c) = true ->
         position c' = position c
         /\ (faceLetter (position c) <> move_head U -> c' = c))
       generateSolvedCube cs'.
Proof.
  exact (on_host centre_pieces_stay ref_host_quarter_turn U
           generateSolvedCube (on_host reach_solved)).
Defined.

Lemma three_turns_are_the_counterpart_witness :
  exists cs3 cs',
    on_host applyMoves [F; F; F] generateSolvedCube = Some cs3
    /\ on_host applyMove F' generateSolvedCube = Some cs'
    /\ Forall2 (fun c3 c' =>
                  id c3 = id c'
                  /\ position c3 = position c'
                  /\ initialPosition c3 = initialPosition c') cs3 cs'.
Proof.
  exact (on_host three_turns_are_the_counterpart ref_host_quarter_turn
           F generateSolvedCube (on_host reach_solved)).
Defined.

Lemma same_axis_moves_commute_witness :
  exists cs12 cs21,
    on_host applyMoves [R; L'] generateSolvedCube = Some cs12
    /\ on_host applyMoves [L'; R] generateSolvedCube = Some cs21
    /\ Forall2 (fun c12 c21 =>
                  id c12 = id c21
                  /\ position c12 = position c21
                  /\ initialPosition c12 = initialPosition c21) cs12 cs21.
Proof.
  exact (on_host same_axis_moves_commute ref_host_quarter_turn R L'
           generateSolvedCube eq_refl (on_host reach_solved)).
Defined.

(** A move queued, a tick, a click, a scramble and a tick. *)
Lemma scheduler_keeps_invariants_witness :
  exists s,
    on_host_sqrt run
        [Rotate R; Tick; Click (Some (1, 0, 0)) corner_111;
         Scramble (fun _ => 0.5%float); Tick] initialState = Some s
    /\ cubeInv (cubies s)
    /\ map id (cubies s) = seq 0 27
    /\ map initialPosition (cubies s) = grid
    /\ flightInv s
    /\ (isAnimating s = true <-> currentMove s <> None).
Proof.
  exact (on_host_sqrt scheduler_keeps_invariants ref_host_quarter_turn
           [Rotate R; Tick; Click (Some (1, 0, 0)) corner_111;
            Scramble (fun _ => 0.5%float); Tick]).
Defined.

(** R then U queued on the initial state: 22 ticks. *)
Lemma queue_drains_in_order_witness :
  exists cs',
    on_host applyMoves [R; U] generateSolvedCube = Some cs'
    /\ on_host ticks 22 queued_R_U
       = Some (mkState cs' None None false [] None []).
Proof.
  apply (on_host queue_drains_in_order ref_host_quarter_turn queued_R_U).
  - split; [apply reach_solved | reflexivity].
  - reflexivity.
Defined.


Lemma getRotationResult_on_lattice_witness :
  In (getRotationResult ref_cos ref_sin (1, 1, 0) ax_y (-1)) grid
  /\ getRotationResult ref_cos ref_sin
       (getRotationResult ref_cos ref_sin (1, 1, 0) ax_y (-1)) ax_y (- -1)
     = (1, 1, 0).
Proof.
  destruct (getRotationResult_on_lattice ref_cos ref_sin ref_host_quarter_turn
              ax_y (-1) (1, 1, 0)) as [H1 [_ [H2 _]]].
  - apply memV_In. vm_compute. reflexivity.
  - right. reflexivity.
  - split; [exact H1 | exact H2].
Defined.

Lemma round_snaps_to_the_nearest_integer_witness :
  round (7 # 5) = 1 /\ round (inject_Z (-2) + (1 # 2)) = -1.
Proof.
  destruct (round_snaps_to_the_nearest_integer 1 (7 # 5) (0, 0, 0))
    as [H1 _].
  destruct (round_snaps_to_the_nearest_integer (-2) 0 (0, 0, 0))
    as [_ [H2 _]].
  split; [apply H1; reflexivity | exact H2].
Defined.

Lemma validFaces_count_witness :
  List.length (validFaces (1, 1, 0)) = 2%nat
  /\ List.length (validFaces (0, -1, 0)) = 2%nat.
Proof.
  split.
  - apply (validFaces_count (1, 1, 0)). apply memV_In. vm_compute. reflexivity.
  - apply (validFaces_count (0, -1, 0)). apply memV_In. vm_compute.
    reflexivity.
Defined.


(** The same on the reference host, computed. *)
Example cues_of_a_corner :
  map label (ArrowIndicators ref_cos ref_sin ref_sqrt (1, 1, 1) (1, 0, 0))
  = [R; R'; U'; F]
  /\ map label (ArrowIndicators ref_cos ref_sin ref_sqrt (1, 1, 0) (0, 1, 0))
     = [U; U']
  /\ map label (ArrowIndicators_0 ref_cos ref_sin ref_sqrt (1, 1, 0))
     = [R; R'; U; U'].
Proof. vm_compute. repeat split. Qed.

Lemma legacy_cues_witness :
  map label (ArrowIndicators_0 ref_cos ref_sin ref_sqrt (1, 1, 0))
  = filter (fun m => num_eq (component (moveAxis m) (1, 1, 0)) (moveLayer m))
           legacyCodes.
Proof.
  destruct (legacy_cues ref_cos ref_sin ref_sqrt ref_host_quarter_turn
              (1, 1, 0)) as [_ H].
  - apply memV_In. vm_compute. reflexivity.
  - apply H. reflexivity.
Defined.

(** The edge (1,0,1) on the front face: the cue of F is diagonal. *)
Lemma legacy_cue_direction_witness :
  exists a,
    addArrow ref_cos ref_sin ref_sqrt (1, 0, 1) ax_z 1 F = [a]
    /\ label a = F
    /\ nonZeroCount (arrow_direction a) = 2%nat.
Proof.
  apply (legacy_cue_direction ref_cos ref_sin ref_sqrt ref_host_quarter_turn
           (1, 0, 1) F).
  - apply memV_In. vm_compute. reflexivity.
  - reflexivity.
  - reflexivity.
Defined.

(** R in flight on the solved cube with ten steps taken: one more tick. *)
Lemma move_in_flight_is_committed_witness :
  exists n cs',
    (1 <= n <= 11)%nat
    /\ on_host applyMove R generateSolvedCube = Some cs'
    /\ on_host ticks n state_R_in_flight
       = Some (mkState cs' None None false [U] None []).
Proof.
  apply (on_host move_in_flight_is_committed ref_host_quarter_turn
           state_R_in_flight flight_R).
  - exact state_R_in_flight_schedInv.
  - reflexivity.
  - reflexivity.
Defined.

(** R, U and F' on the solved cube, then F, U' and R'. *)
Lemma moves_are_undone_in_reverse_witness :
  exists cs',
    on_host applyMoves [R; U; F'; F; U'; R'] generateSolvedCube = Some cs'
    /\ Forall2 (fun c c' =>
                  id c' = id c
                  /\ position c' = position c
                  /\ initialPosition c' = initialPosition c)
               generateSolvedCube cs'.
Proof.
  exact (on_host moves_are_undone_in_reverse ref_host_quarter_turn
           [R; U; F'] generateSolvedCube (on_host reach_solved)).
Defined.

(** The cues of the edge (1,1,0) clicked on its upper face. *)
Lemma cues_turn_reported_faces_witness :
  Forall (fun a => In (move_head (label a)) (validFaces (1, 1, 0)))
    (ArrowIndicators ref_cos ref_sin ref_sqrt (1, 1, 0) (0, 1, 0)).
Proof.
  apply Forall_forall. intros a Ha.
  exact (cues_turn_reported_faces ref_cos ref_sin ref_sqrt edge_110 (0, 1, 0)
           a Ha).
Defined.
